(** * RSA-Algorithm-CPP: a shallow embedding of [rsa.cpp]

    [rsa.cpp] ([Utility::Math], [Utility::File], [Generate], [encode],
    [decode], [main]) is transcribed function by function.

    - [long long int] is a signed 64-bit integer, [int] a signed 32-bit
      integer: values are [Z], every arithmetic result is reduced with
      [wrap64] / [wrap32] (two's complement wrap-around).
    - [%] is the truncating remainder [Z.rem]; a zero divisor, and
      [LLONG_MIN % -1], have no defined result.
    - [std::vector<long long int>] is [list Z]; [operator[]] is a partial
      lookup, an index outside the vector has no defined result.
    - [assert] is active (the file does not define [NDEBUG]); a failed
      assertion aborts the call.
    - [float] and [double] are IEEE 754 binary32 and binary64 with
      round-to-nearest-even, each operation rounded on its own (no fused
      multiply-add, no extended precision).
    - every [for] / [do-while] loop is a step function iterated by [while].
    - memory is assumed sufficient for every vector that [reserve] accepts.

    - the files and the console are an explicit [File.world] that
      [Utility::File::saveTo] and [main] pass along: a file is identified by
      its name and holds a string (no translation of line ends); whether a
      name can be opened is a fixed property of the world; a write to an
      open file does not fail.  [std::cin] is the list of the integers it
      will deliver. *)

From Stdlib Require Import ZArith List Bool Lia Sorted.
From Stdlib Require Import Floats.SpecFloat.
From Stdlib Require Import Zmod.ZmodInv.
From Stdlib Require Strings.String Strings.Ascii.
From Stdlib Require DecimalString DecimalZ DecimalPos.
Import ListNotations.

#[local] Open Scope Z_scope.

(** ** Outcomes of a call *)

Inductive outcome (A : Type) : Type :=
| Ok (a : A)      (* the call returns [a] *)
| AssertFail      (* an [assert] failed: [abort()] *)
| LengthError     (* [std::length_error] thrown by [vector::reserve] *)
| Undefined       (* no defined behaviour: bad index, zero divisor, ... *)
| OutOfFuel.      (* the loop is still running when the fuel is spent *)

Arguments Ok {A} a.
Arguments AssertFail {A}.
Arguments LengthError {A}.
Arguments Undefined {A}.
Arguments OutOfFuel {A}.

Definition bind {A B : Type} (m : outcome A) (k : A -> outcome B) : outcome B :=
  match m with
  | Ok a => k a
  | AssertFail => AssertFail
  | LengthError => LengthError
  | Undefined => Undefined
  | OutOfFuel => OutOfFuel
  end.

Notation "x <- m ;; k" := (bind m (fun x => k))
  (at level 61, m at next level, right associativity).

(** [assert(c)] *)
Definition assert (c : bool) : outcome unit :=
  if c then Ok tt else AssertFail.

(** ** Machine integers *)

Definition wrap (w : Z) (z : Z) : Z :=
  (z + 2 ^ (w - 1)) mod 2 ^ w - 2 ^ (w - 1).

Definition wrap32 : Z -> Z := wrap 32.
Definition wrap64 : Z -> Z := wrap 64.

Definition INT_MAX : Z := 2 ^ 31 - 1.
Definition INT_MIN : Z := - 2 ^ 31.
Definition LLONG_MAX : Z := 2 ^ 63 - 1.
Definition LLONG_MIN : Z := - 2 ^ 63.

Definition in_llong (z : Z) : Prop := LLONG_MIN <= z <= LLONG_MAX.

(** [a % b] on [long long int]. *)
Definition rem64 (a b : Z) : outcome Z :=
  if b =? 0 then Undefined
  else if (a =? LLONG_MIN) && (b =? -1) then Undefined
  else Ok (Z.rem a b).

(** ** Loops

    A loop body maps the loop state either to the next state ([inl]) or to
    the value the loop leaves with ([inr]).  [iter] runs it a unary number
    of times, [run] a binary number of times (so that a bound such as
    [2^64] can be written down); [while] is the loop itself. *)

Section Loops.
Context {St R : Type}.
Variable body : St -> outcome (St + R).

Fixpoint iter (n : nat) (s : St) : outcome (St + R) :=
  match n with
  | O => Ok (inl s)
  | S k =>
      r <- body s ;;
      match r with
      | inl s' => iter k s'
      | inr v => Ok (inr v)
      end
  end.

Definition resume (f : St -> outcome (St + R)) (m : outcome (St + R))
  : outcome (St + R) :=
  r <- m ;;
  match r with
  | inl s => f s
  | inr v => Ok (inr v)
  end.

(** [twice f] runs [f], and runs it again unless it has left. *)
Definition twice (f : St -> outcome (St + R)) (s : St) : outcome (St + R) :=
  resume f (f s).

Fixpoint run (p : positive) : St -> outcome (St + R) :=
  match p with
  | xH => body
  | xO p' => twice (run p')
  | xI p' => fun s => resume (twice (run p')) (body s)
  end.

Definition while (fuel : positive) (s : St) : outcome R :=
  r <- run fuel s ;;
  match r with
  | inl _ => OutOfFuel
  | inr v => Ok v
  end.

(** An outcome that is not "continue with state [s]". *)
Definition leaves (m : outcome (St + R)) : Prop :=
  forall s, m <> Ok (inl s).

(** What [while] returns once the body has left with [m]. *)
Definition finish (m : outcome (St + R)) : outcome R :=
  r <- m ;;
  match r with
  | inl _ => OutOfFuel
  | inr v => Ok v
  end.
End Loops.

(** When two terms are compared, [twice] is unfolded last: a loop is
    compared with a loop before either is run. *)
Strategy 100 [twice].

(** Every loop counter is a 32- or 64-bit integer (or is bounded by one), so
    a loop that has not left after this many steps never leaves. *)
Definition fuel32 : positive := 2 ^ 32.
Definition fuel64 : positive := 2 ^ 64.

(** ** Key records ([namespace Key]) *)

Module Key.
Record Public : Type := mkPublic { n : Z; e : Z }.
Record Private : Type := mkPrivate { p : Z; q : Z; d : Z }.
End Key.

(** ** [Utility::Math] *)

(** [isPrime] (rsa.cpp, lines 28-33): the counter [i] is an [int]; [x % i]
    and [i < x] are evaluated on [long long int]. *)
Definition isPrime_body (x : Z) (i : Z) : outcome (Z + bool) :=
  if i <? x then
    r <- rem64 x i ;;
    if r =? 0 then Ok (inr false) else Ok (inl (wrap32 (i + 1)))
  else Ok (inr true).

Definition isPrime (x : Z) : outcome bool :=
  while (isPrime_body x) fuel32 2.

(** The same loop read by the letter of the language: [++i] on an [int]
    that holds [INT_MAX] has no defined result.  [isPrime] above gives that
    increment the value [INT_MIN]; the two readings differ only once the
    counter has reached [INT_MAX]. *)
Definition isPrime_std_body (x : Z) (i : Z) : outcome (Z + bool) :=
  if i <? x then
    r <- rem64 x i ;;
    if r =? 0 then Ok (inr false)
    else if i <? INT_MAX then Ok (inl (i + 1)) else Undefined
  else Ok (inr true).

Definition isPrime_std (x : Z) : outcome bool :=
  while (isPrime_std_body x) fuel32 2.

(** [dividerList] (lines 37-49): [reserve(x)] converts [x] to [size_t] and
    throws when the request exceeds [max_size()], which is
    [PTRDIFF_MAX / sizeof(long long int)]. *)
Definition vector_max_size : Z := 2 ^ 60 - 1.

Definition dividerList_body (x : Z) (st : Z * list Z)
  : outcome (Z * list Z + list Z) :=
  let '(i, v) := st in
  if i <=? x then
    r <- rem64 x i ;;
    Ok (inl (wrap64 (i + 1), if r =? 0 then v ++ [i] else v))
  else Ok (inr v).

Definition dividerList (x : Z) : outcome (list Z) :=
  if (x <? 0) || (vector_max_size <? x) then LengthError
  else while (dividerList_body x) fuel64 (1, []).

(** [v[i]] *)
Definition index (v : list Z) (i : nat) : outcome Z :=
  match nth_error v i with
  | Some z => Ok z
  | None => Undefined
  end.

(** [areCoprimes] (lines 54-69): the inner loop leaves with [true] when it
    executed [return false], with [false] when it ran to its end.  Both
    loops index with [i]; the counter [j] only counts the rounds. *)
Definition areCoprimes_inner (al bl : list Z) (i : nat)
  : outcome (nat + bool) :=
  if (i <? length al)%nat then
    x <- index al i ;;
    y <- index bl i ;;
    if x =? y then Ok (inr true) else Ok (inl (S i))
  else Ok (inr false).

Definition areCoprimes_outer (al bl : list Z) (j : nat)
  : outcome (nat + bool) :=
  if (j <? length bl)%nat then
    hit <- while (areCoprimes_inner al bl) fuel64 1%nat ;;
    if hit : bool then Ok (inr false) else Ok (inl (S j))
  else Ok (inr true).

Definition areCoprimes (a b : Z) : outcome bool :=
  if (a =? 1) || (b =? 1) then Ok true
  else
    al <- dividerList a ;;
    bl <- dividerList b ;;
    while (areCoprimes_outer al bl) fuel64 1%nat.

(** [phi] (lines 72-76) *)
Definition phi (n p q : Z) : outcome Z :=
  _ <- assert (wrap64 (p * q) =? n) ;;
  pp <- isPrime p ;;
  qq <- (if pp then isPrime q else Ok false) ;;
  _ <- assert qq ;;
  Ok (wrap64 (wrap64 (p - 1) * wrap64 (q - 1))).

(** [power] (lines 80-90) *)
Definition power_body (x exponent : Z) (st : Z * Z) : outcome (Z * Z + Z) :=
  let '(i, result) := st in
  if i <? exponent then Ok (inl (wrap64 (i + 1), wrap64 (result * x)))
  else Ok (inr result).

Definition power (x exponent : Z) : outcome Z :=
  if exponent =? 0 then Ok 1
  else while (power_body x exponent) fuel64 (1, x).

(** ** [Utility::File] (lines 93-136)

    [File.world] is what the program sees outside its memory: the content
    of each file ([None]: there is no file of that name), whether an
    existing file of that name can be opened for reading and writing
    ([may_open]), whether the name can be opened for writing, which creates
    the file or empties it ([may_write]), and the characters sent to
    [std::cout].

    A [std::fstream] is its file buffer and its state.  The buffer is
    [Closed], or [Opened] on a file with the characters [written] since the
    file was opened, which start at position 0, and the [rest] of the
    content behind the put position; [fs_close] stores [written ++ rest] as
    the content.  [good] is false when [failbit] or [badbit] is set.

    - [fs_open]: [open(filename)], mode [in | out]: the file must exist, it
      keeps its content.
    - [fs_open_out]: [open(filename, std::ios::out)]: creates the file or
      empties it.
    - [fs_clear]: [clear()] resets the state of the stream and nothing else.
    - [fs_put]: [operator<<] of a text that is not empty: does nothing on
      a stream that is not [good], fails on a closed buffer.
    - [decimal]: the characters [operator<<] produces for a
      [long long int] (no locale is set). *)

Module File.
Import Ascii String.
#[local] Open Scope string_scope.

Record world : Type := mkWorld {
  files : string -> option string;
  may_open : string -> bool;
  may_write : string -> bool;
  console : string
}.

(** The world in which the file [name] holds [content]. *)
Definition store (name content : string) (w : world) : world :=
  mkWorld (fun other => if String.eqb other name then Some content
                        else files w other)
          (may_open w) (may_write w) (console w).

Definition cout (text : string) (w : world) : world :=
  mkWorld (files w) (may_open w) (may_write w) (console w ++ text).

Inductive filebuf : Type :=
| Closed
| Opened (name written rest : string).

Record fstream : Type := mkStream { buf : filebuf; good : bool }.

Definition is_open (s : fstream * world) : bool :=
  match buf (fst s) with
  | Closed => false
  | Opened _ _ _ => true
  end.

Definition fs_open (name : string) (s : fstream * world) : fstream * world :=
  let (fs, w) := s in
  match buf fs, files w name with
  | Closed, Some content =>
      if may_open w name then (mkStream (Opened name "" content) true, w)
      else (mkStream Closed false, w)
  | Closed, None => (mkStream Closed false, w)
  | Opened _ _ _, _ => (mkStream (buf fs) false, w)
  end.

Definition fs_open_out (name : string) (s : fstream * world)
  : fstream * world :=
  let (fs, w) := s in
  match buf fs with
  | Closed =>
      if may_write w name
      then (mkStream (Opened name "" "") true, store name "" w)
      else (mkStream Closed false, w)
  | Opened _ _ _ => (mkStream (buf fs) false, w)
  end.

Definition fs_close (s : fstream * world) : fstream * world :=
  let (fs, w) := s in
  match buf fs with
  | Opened name written rest =>
      (mkStream Closed (good fs), store name (written ++ rest) w)
  | Closed => (mkStream Closed false, w)
  end.

Definition fs_clear (s : fstream * world) : fstream * world :=
  (mkStream (buf (fst s)) true, snd s).

(** [text] without its first [count] characters. *)
Fixpoint skip (count : nat) (text : string) : string :=
  match count, text with
  | O, _ => text
  | S _, EmptyString => EmptyString
  | S count', String _ text' => skip count' text'
  end.

Definition fs_put (text : string) (s : fstream * world) : fstream * world :=
  let (fs, w) := s in
  if good fs then
    match buf fs with
    | Opened name written rest =>
        (mkStream (Opened name (written ++ text) (skip (length text) rest))
           true, w)
    | Closed => (mkStream Closed false, w)
    end
  else s.

(** [std::cout << text] between two operations on the stream. *)
Definition console_put (text : string) (s : fstream * world)
  : fstream * world :=
  (fst s, cout text (snd s)).

Definition newline : string := String (ascii_of_nat 10) EmptyString.

Definition decimal (z : Z) : string :=
  DecimalString.NilZero.string_of_int (Z.to_int z).

(** [saveTo(filename, const Key::Public&)] (lines 97-115). *)
Definition saveTo_public (filename : string) (key : Key.Public) (w : world)
  : world :=
  let s := (mkStream Closed true, w) in
  let s := fs_open filename s in
  let s :=
    if negb (is_open s) then
      let s := console_put ("Couldn't open existing file. Creating "
                            ++ filename ++ "..." ++ newline) s in
      let s := fs_clear s in
      let s := fs_open_out filename s in
      let s := fs_close s in
      let s := fs_open filename s in
      console_put ("File created." ++ newline) s
    else s in
  let s := fs_clear s in
  let s := fs_put "n: " s in
  let s := fs_put (decimal (Key.n key)) s in
  let s := fs_put newline s in
  let s := fs_put "e: " s in
  let s := fs_put (decimal (Key.e key)) s in
  let s := fs_close s in
  snd s.

(** [saveTo(filename, const Key::Private&)] (lines 117-135). *)
Definition saveTo_private (filename : string) (key : Key.Private) (w : world)
  : world :=
  let s := (mkStream Closed true, w) in
  let s := fs_open filename s in
  let s :=
    if negb (is_open s) then
      let s := console_put ("Couldn't open existing file. Creating "
                            ++ filename ++ "..." ++ newline) s in
      let s := fs_clear s in
      let s := fs_open_out filename s in
      let s := fs_close s in
      let s := fs_open filename s in
      console_put ("File created." ++ newline) s
    else s in
  let s := fs_clear s in
  let s := fs_put "p: " s in
  let s := fs_put (decimal (Key.p key)) s in
  let s := fs_put newline s in
  let s := fs_put "q: " s in
  let s := fs_put (decimal (Key.q key)) s in
  let s := fs_put newline s in
  let s := fs_put "d: " s in
  let s := fs_put (decimal (Key.d key)) s in
  let s := fs_close s in
  snd s.

End File.

(** ** Floating point

    [float] is binary32, [double] is binary64.  Conversions between the two
    and from [long long int] round to nearest even; [static_cast<long long
    int>] of a [double] truncates, and has no defined result for NaN, an
    infinity or a value outside the 64-bit range. *)

Module Fp.
Definition fadd : spec_float -> spec_float -> spec_float := SFadd 53 1024.
Definition fmul : spec_float -> spec_float -> spec_float := SFmul 53 1024.
Definition fdiv : spec_float -> spec_float -> spec_float := SFdiv 53 1024.
Definition fdiv32 : spec_float -> spec_float -> spec_float := SFdiv 24 128.
Definition fleb : spec_float -> spec_float -> bool := SFleb.

Definition double_of_llong (z : Z) : spec_float :=
  binary_normalize 53 1024 z 0 false.
Definition float_of_llong (z : Z) : spec_float :=
  binary_normalize 24 128 z 0 false.

Definition double_of_float (f : spec_float) : spec_float :=
  match f with
  | S754_finite s m e => binary_normalize 53 1024 (cond_Zopp s (Zpos m)) e s
  | _ => f
  end.

Definition llong_of_double (f : spec_float) : outcome Z :=
  match f with
  | S754_zero _ => Ok 0
  | S754_finite s m e =>
      let mag := if 0 <=? e then Zpos m * 2 ^ e else Zpos m / 2 ^ (- e) in
      let z := cond_Zopp s mag in
      if (LLONG_MIN <=? z) && (z <=? LLONG_MAX) then Ok z else Undefined
  | _ => Undefined
  end.

(** The literals [1.0f] and [0.0001f]. *)
Definition one_f : spec_float := S754_finite false 8388608 (-23).
Definition epsilon_f : spec_float := S754_finite false 13743895 (-37).
End Fp.

(** ** [Generate] *)

(** [publicKey] (lines 141-157).  The scan for [e]: the state is the counter
    [i]; the loop leaves with the final value of [e] ([i] after [break], the
    initial [0] otherwise). *)
Definition publicKey_body (n_eulero : Z) (i : Z) : outcome (Z + Z) :=
  if i <? n_eulero then
    c <- areCoprimes i n_eulero ;;
    if c : bool then Ok (inr i) else Ok (inl (wrap64 (i + 1)))
  else Ok (inr 0).

Definition publicKey (p q : Z) : outcome Key.Public :=
  pp <- isPrime p ;;
  qq <- (if pp then isPrime q else Ok false) ;;
  _ <- assert qq ;;
  let n := wrap64 (p * q) in
  n_eulero <- phi n p q ;;
  e <- while (publicKey_body n_eulero) fuel64 2 ;;
  Ok (Key.mkPublic n e).

(** [privateKey] (lines 159-182).  The [do]-[while] search for [d]: the
    state is [k]; the loop leaves with [d]. *)
Definition privateKey_body (e n_eulero : Z) (k : Z) : outcome (Z + Z) :=
  let epsilon := Fp.double_of_float Fp.epsilon_f in
  let temp_d :=
    Fp.fadd
      (Fp.double_of_float (Fp.fdiv32 Fp.one_f (Fp.float_of_llong e)))
      (Fp.fmul (Fp.double_of_llong k)
         (Fp.fdiv (Fp.double_of_llong n_eulero) (Fp.double_of_llong e))) in
  t <- Fp.llong_of_double temp_d ;;
  if Fp.fleb temp_d (Fp.fadd (Fp.double_of_llong t) epsilon)
  then Ok (inr t)
  else Ok (inl (wrap64 (k + 1))).

Definition privateKey (p q : Z) (publicKey : Key.Public)
  : outcome Key.Private :=
  pp <- isPrime p ;;
  qq <- (if pp then isPrime q else Ok false) ;;
  _ <- assert qq ;;
  n_eulero <- phi (Key.n publicKey) p q ;;
  d <- while (privateKey_body (Key.e publicKey) n_eulero) fuel64 1 ;;
  Ok (Key.mkPrivate p q d).

(** ** [encode] and [decode] (lines 186-197) *)

Definition encode (publicKey : Key.Public) (m : Z) : outcome Z :=
  x <- power m (Key.e publicKey) ;;
  rem64 x (Key.n publicKey).

Definition decode (publicKey : Key.Public) (privateKey : Key.Private) (c : Z)
  : outcome Z :=
  x <- power c (Key.d privateKey) ;;
  rem64 x (Key.n publicKey).

(** ** [main] (lines 199-238)

    [std::cin >> x] for a [long long int]: [input] lists the integers the
    extractions deliver; once an extraction fails (end of input, a token
    that is no number) it leaves 0 and every later one fails too.

    The console of the world lists the characters sent to [std::cout].
    They are shown once the stream is flushed, which an extraction from
    [std::cin] does unless the input has ended before it: when the program
    is aborted, a text sent after the last such extraction is not shown. *)

Section Main.
Import Ascii String.
#[local] Open Scope string_scope.

Definition cin_llong (input : list Z) : Z * list Z :=
  match input with
  | z :: rest => (z, rest)
  | [] => (0%Z, [])
  end.

(** A call that stops the program, in the world [w], unless it returns. *)
Definition call {A : Type} (w : File.world) (m : outcome A)
  (k : A -> File.world * outcome Z) : File.world * outcome Z :=
  match m with
  | Ok a => k a
  | AssertFail => (w, AssertFail)
  | LengthError => (w, LengthError)
  | Undefined => (w, Undefined)
  | OutOfFuel => (w, OutOfFuel)
  end.

Definition main (input : list Z) (w : File.world) : File.world * outcome Z :=
  let w := File.cout "Insert p: " w in
  let (p, input) := cin_llong input in
  let w := File.cout "Insert q: " w in
  let (q, input) := cin_llong input in
  let publicKey_filename := "publickey.txt" in
  let privateKey_filename := "privatekey.txt" in
  call w (publicKey p q) (fun publicKey =>
  call w (privateKey p q publicKey) (fun privateKey =>
  let w := File.saveTo_public publicKey_filename publicKey w in
  let w := File.saveTo_private privateKey_filename privateKey w in
  let w := File.cout "Insert m: " w in
  let (m, input) := cin_llong input in
  call w (assert ((0 <? m)%Z && (m <? Key.n publicKey)%Z)) (fun _ =>
  call w (encode publicKey m) (fun c =>
  let w := File.cout ("Encoded number c: " ++ File.decimal c
                      ++ File.newline) w in
  call w (decode publicKey privateKey c) (fun m_decoded =>
  let w := File.cout ("Decoded number m: " ++ File.decimal m_decoded
                      ++ File.newline) w in
  let w := File.cout (if (m =? m_decoded)%Z
                      then "Encoding/Decoding successful!" ++ File.newline
                      else "Encoding/Decoding failed." ++ File.newline) w in
  (w, Ok 0%Z)))))).
End Main.

(** * Definitions used to state the properties

    None of these is part of the program: they name the states a loop goes
    through and the values the functions are compared with. *)

(** The value [phi] returns when its assertions hold. *)
Definition phi_value (p q : Z) : Z := wrap64 (wrap64 (p - 1) * wrap64 (q - 1)).

(** The states of the counter: [2, 3, ..., INT_MAX, INT_MIN, ..., -1]. *)
Definition counter (k : nat) : Z := wrap32 (2 + Z.of_nat k).

(** Primality of a concrete number by trial division up to its square
    root. *)
Fixpoint no_divisor (x : Z) (n : nat) (d : Z) : bool :=
  match n with
  | O => true
  | S k => negb (x mod d =? 0) && no_divisor x k (d + 1)
  end.

(** The divisors of [x] in ascending order. *)
Definition divides_b (x i : Z) : bool := Z.rem x i =? 0.

Definition divisors (x : Z) : list Z :=
  filter (divides_b x) (map Z.of_nat (seq 1 (Z.to_nat x))).

(** The state of the loop of [dividerList] after [k] rounds. *)
Definition dividerList_state (x : Z) (k : nat) : Z * list Z :=
  (1 + Z.of_nat k, filter (divides_b x) (map Z.of_nat (seq 1 k))).

(** The comparison the inner loop makes: two lists position by position, the
    first as far as it reaches. *)
Fixpoint clash (al bl : list Z) : outcome bool :=
  match al with
  | [] => Ok false
  | x :: al' =>
      match bl with
      | [] => Undefined
      | y :: bl' => if x =? y then Ok true else clash al' bl'
      end
  end.

(** The result of [areCoprimes] on the two divisor lists. *)
Definition positional (al bl : list Z) : outcome bool :=
  if (1 <? length bl)%nat then
    hit <- clash (skipn 1 al) (skipn 1 bl) ;;
    Ok (negb hit)
  else Ok true.

(** The state of the loop of [power] after [k] rounds. *)
Definition power_state (x : Z) (k : nat) : Z * Z :=
  (1 + Z.of_nat k, x ^ (1 + Z.of_nat k)).

(** The search of [privateKey] for the exponent 3, checked on a range of
    values of [phi]: [search_leaves n_eulero] holds when the search leaves in
    its first or second round with the inverse of 3 modulo [n_eulero]. *)
Definition inverse_of_3 (n_eulero d : Z) : bool :=
  (1 <=? d) && (d <? n_eulero) && ((3 * d) mod n_eulero =? 1).

Definition search_leaves (n_eulero : Z) : bool :=
  match privateKey_body 3 n_eulero 1 with
  | Ok (inr d) => inverse_of_3 n_eulero d
  | Ok (inl k) =>
      (k =? 2) &&
      match privateKey_body 3 n_eulero 2 with
      | Ok (inr d) => inverse_of_3 n_eulero d
      | _ => false
      end
  | _ => false
  end.

Fixpoint search_leaves_from (count : nat) (n_eulero : Z) : bool :=
  match count with
  | O => true
  | S c =>
      ((n_eulero mod 3 =? 0) || search_leaves n_eulero)
      && search_leaves_from c (n_eulero + 1)
  end.

(** Files: the texts [saveTo] writes and the worlds it is run in. *)

Section FileText.
Import Ascii String.
#[local] Open Scope string_scope.

(** The text each overload of [saveTo] sends to the file stream. *)
Definition public_text (key : Key.Public) : string :=
  "n: " ++ File.decimal (Key.n key) ++ File.newline
  ++ "e: " ++ File.decimal (Key.e key).

Definition private_text (key : Key.Private) : string :=
  "p: " ++ File.decimal (Key.p key) ++ File.newline
  ++ "q: " ++ File.decimal (Key.q key) ++ File.newline
  ++ "d: " ++ File.decimal (Key.d key).

(** [text] written from position 0 over the content [old]. *)
Definition written_over (text old : string) : string :=
  text ++ File.skip (length text) old.

(** The two messages of the branch taken when the first [open] fails. *)
Definition announce (filename : string) (w : File.world) : File.world :=
  File.cout ("File created." ++ File.newline)
    (File.cout ("Couldn't open existing file. Creating "
                ++ filename ++ "..." ++ File.newline) w).

(** What saving [text] under [filename] does, case by case. *)
Definition saved (filename text : string) (w : File.world) : File.world :=
  match File.files w filename, File.may_open w filename with
  | Some old, true => File.store filename (written_over text old) w
  | _, reopen =>
      if File.may_write w filename
      then File.store filename (if reopen then text else "")
             (announce filename w)
      else announce filename w
  end.

(** Two worlds with the same files, permissions and console. *)
Definition same_world (w1 w2 : File.world) : Prop :=
  (forall name, File.files w1 name = File.files w2 name)
  /\ File.may_open w1 = File.may_open w2
  /\ File.may_write w1 = File.may_write w2
  /\ File.console w1 = File.console w2.

(** The stream and the world when [saveTo] reaches its second [clear]. *)
Definition prepared (filename : string) (w : File.world)
  : File.fstream * File.world :=
  let s := File.fs_open filename (File.mkStream File.Closed true, w) in
  if negb (File.is_open s) then
    let s := File.console_put ("Couldn't open existing file. Creating "
                               ++ filename ++ "..." ++ File.newline) s in
    let s := File.fs_clear s in
    let s := File.fs_open_out filename s in
    let s := File.fs_close s in
    let s := File.fs_open filename s in
    File.console_put ("File created." ++ File.newline) s
  else s.

Fixpoint puts (texts : list string) (s : File.fstream * File.world)
  : File.fstream * File.world :=
  match texts with
  | [] => s
  | text :: texts' => puts texts' (File.fs_put text s)
  end.

Fixpoint join (texts : list string) : string :=
  match texts with
  | [] => ""
  | text :: texts' => text ++ join texts'
  end.

(** No character of [text] is the line feed. *)
Fixpoint one_line (text : string) : bool :=
  match text with
  | EmptyString => true
  | String c text' => negb (Ascii.eqb c (ascii_of_nat 10)) && one_line text'
  end.

(** Sample worlds: a single file, all permitted; no file, nothing
    permitted; a single file that can be written but not read. *)
Definition world_with (filename content : string) : File.world :=
  File.mkWorld
    (fun name => if String.eqb name filename then Some content else None)
    (fun _ => true) (fun _ => true) "".

Definition empty_world : File.world :=
  File.mkWorld (fun _ => None) (fun _ => true) (fun _ => true) "".

Definition locked_world : File.world :=
  File.mkWorld (fun _ => None) (fun _ => false) (fun _ => false) "".

Definition write_only_world (filename content : string) : File.world :=
  File.mkWorld
    (fun name => if String.eqb name filename then Some content else None)
    (fun _ => false) (fun _ => true) "".

(** The worlds [main] goes through: both primes asked for; the keys saved
    and the message asked for; the two numbers and the verdict printed. *)
Definition primes_asked (w : File.world) : File.world :=
  File.cout "Insert q: " (File.cout "Insert p: " w).

Definition keys_saved (publicKey : Key.Public) (privateKey : Key.Private)
  (w : File.world) : File.world :=
  File.cout "Insert m: "
    (File.saveTo_private "privatekey.txt" privateKey
       (File.saveTo_public "publickey.txt" publicKey (primes_asked w))).

Definition reported (m c m_decoded : Z) (w : File.world) : File.world :=
  File.cout (if (m =? m_decoded)%Z
             then "Encoding/Decoding successful!" ++ File.newline
             else "Encoding/Decoding failed." ++ File.newline)
    (File.cout ("Decoded number m: " ++ File.decimal m_decoded
                ++ File.newline)
       (File.cout ("Encoded number c: " ++ File.decimal c ++ File.newline)
          w)).
End FileText.

(** * Properties *)

(** ** The outcome monad and the loop combinator *)

Lemma bind_Ok_inv {A B : Type} (m : outcome A) (k : A -> outcome B) (b : B) :
  bind m k = Ok b -> exists a, m = Ok a /\ k a = Ok b.
Proof. destruct m; simpl; intros H; try discriminate. eauto. Qed.

Section LoopFacts.
Context {St R : Type}.
Variable body : St -> outcome (St + R).

Lemma resume_leaves f (m : outcome (St + R)) : leaves m -> resume f m = m.
Proof.
  intros H. destruct m as [[s | v] | | | |]; simpl; try reflexivity.
  exfalso. apply (H s). reflexivity.
Qed.

Lemma resume_ext f g (m : outcome (St + R)) :
  (forall s, f s = g s) -> resume f m = resume g m.
Proof.
  intros H. destruct m as [[s | v] | | | |]; simpl; auto.
Qed.

Lemma iter_S n s : iter body (S n) s = resume (iter body n) (body s).
Proof. reflexivity. Qed.

Lemma iter_add n m s :
  iter body (n + m) s = resume (iter body m) (iter body n s).
Proof.
  revert s. induction n as [| n IH]; intros s.
  - reflexivity.
  - change (S n + m)%nat with (S (n + m)). rewrite !iter_S.
    destruct (body s) as [[s' | v] | | | |]; simpl; auto.
Qed.

Lemma run_iter p s : run body p s = iter body (Pos.to_nat p) s.
Proof.
  revert s. induction p as [p IH | p IH |]; intros s.
  - rewrite Pos2Nat.inj_xI. cbn [run].
    replace (S (2 * Pos.to_nat p)) with (S (Pos.to_nat p + Pos.to_nat p))
      by lia.
    rewrite iter_S. apply resume_ext. intros s'. unfold twice.
    rewrite iter_add, IH. apply resume_ext. exact IH.
  - rewrite Pos2Nat.inj_xO. cbn [run]. unfold twice.
    replace (2 * Pos.to_nat p)%nat with (Pos.to_nat p + Pos.to_nat p)%nat
      by lia.
    rewrite iter_add, IH. apply resume_ext. exact IH.
  - cbn [run]. simpl. destruct (body s) as [[s' | v] | | | |]; reflexivity.
Qed.

(** Once the loop has left, more fuel changes nothing. *)
Lemma iter_stable n m s :
  leaves (iter body n s) -> (n <= m)%nat -> iter body m s = iter body n s.
Proof.
  intros H Hle. replace m with (n + (m - n))%nat by lia.
  rewrite iter_add. apply resume_leaves. exact H.
Qed.

Lemma while_iter fuel n s :
  leaves (iter body n s) -> (n <= Pos.to_nat fuel)%nat ->
  while body fuel s = finish (iter body n s).
Proof.
  intros H Hle. unfold while, finish.
  rewrite run_iter, (iter_stable n _ s H Hle). reflexivity.
Qed.

Lemma while_Ok_inv fuel s v :
  while body fuel s = Ok v -> iter body (Pos.to_nat fuel) s = Ok (inr v).
Proof.
  unfold while. rewrite run_iter.
  destruct (iter body (Pos.to_nat fuel) s) as [[s' | v'] | | | |]; simpl;
    intros H; try discriminate.
  injection H as ->. reflexivity.
Qed.

(** A run along a known sequence of states. *)
Lemma iter_trace (st : nat -> St) n :
  (forall k, (k < n)%nat -> body (st k) = Ok (inl (st (S k)))) ->
  iter body n (st O) = Ok (inl (st n)).
Proof.
  revert st. induction n as [| n IH]; intros st H.
  - reflexivity.
  - rewrite iter_S, (H O) by lia. simpl.
    apply (IH (fun k => st (S k))). intros k Hk. apply H. lia.
Qed.

Lemma while_trace (st : nat -> St) n fuel :
  (forall k, (k < n)%nat -> body (st k) = Ok (inl (st (S k)))) ->
  leaves (body (st n)) ->
  (n < Pos.to_nat fuel)%nat ->
  while body fuel (st O) = finish (body (st n)).
Proof.
  intros Htr Hl Hf.
  assert (E : iter body (S n) (st O) = body (st n)).
  { replace (S n) with (n + 1)%nat by lia.
    rewrite iter_add, (iter_trace st n Htr). simpl.
    destruct (body (st n)) as [[s' | v] | | | |]; reflexivity. }
  rewrite (while_iter fuel (S n)).
  - rewrite E. reflexivity.
  - rewrite E. exact Hl.
  - lia.
Qed.
End LoopFacts.

Lemma fuel32_nat : Z.of_nat (Pos.to_nat fuel32) = 4294967296.
Proof. rewrite positive_nat_Z. reflexivity. Qed.

Lemma fuel64_nat : Z.of_nat (Pos.to_nat fuel64) = 18446744073709551616.
Proof. rewrite positive_nat_Z. reflexivity. Qed.

(** Arithmetic goals that mention the fuel of a loop: the fuel is replaced by
    a variable of known value before [lia] runs. *)
Ltac fuel_lia :=
  let F32 := fresh "F32" in
  let F64 := fresh "F64" in
  pose proof fuel32_nat as F32; pose proof fuel64_nat as F64;
  generalize dependent (Pos.to_nat fuel32);
  generalize dependent (Pos.to_nat fuel64);
  intros; lia.

(** ** Machine integers *)

Lemma wrap32_id z : INT_MIN <= z <= INT_MAX -> wrap32 z = z.
Proof.
  unfold wrap32, wrap, INT_MIN, INT_MAX. intros H.
  change (2 ^ (32 - 1)) with 2147483648. change (2 ^ 32) with 4294967296.
  change (2 ^ 31) with 2147483648 in H.
  rewrite Z.mod_small; lia.
Qed.

Lemma wrap64_id z : in_llong z -> wrap64 z = z.
Proof.
  unfold wrap64, wrap, in_llong, LLONG_MIN, LLONG_MAX. intros H.
  change (2 ^ (64 - 1)) with 9223372036854775808.
  change (2 ^ 64) with 18446744073709551616.
  change (2 ^ 63) with 9223372036854775808 in H.
  rewrite Z.mod_small; lia.
Qed.

Lemma wrap32_range z : INT_MIN <= wrap32 z <= INT_MAX.
Proof.
  unfold wrap32, wrap, INT_MIN, INT_MAX.
  change (2 ^ (32 - 1)) with 2147483648. change (2 ^ 32) with 4294967296.
  change (2 ^ 31) with 2147483648.
  pose proof (Z.mod_pos_bound (z + 2147483648) 4294967296). lia.
Qed.

Lemma wrap64_range z : in_llong (wrap64 z).
Proof.
  unfold wrap64, wrap, in_llong, LLONG_MIN, LLONG_MAX.
  change (2 ^ (64 - 1)) with 9223372036854775808.
  change (2 ^ 64) with 18446744073709551616.
  change (2 ^ 63) with 9223372036854775808.
  pose proof (Z.mod_pos_bound (z + 9223372036854775808) 18446744073709551616).
  lia.
Qed.

Lemma rem64_Ok a b :
  b <> 0 -> (a <> LLONG_MIN \/ b <> -1) -> rem64 a b = Ok (Z.rem a b).
Proof.
  intros Hb H. unfold rem64.
  destruct (Z.eqb_spec b 0) as [| _]; [contradiction |].
  destruct (Z.eqb_spec a LLONG_MIN), (Z.eqb_spec b (-1)); simpl;
    try reflexivity.
  lia.
Qed.

(** ** [isPrime] *)

Section IsPrime.
Variable x : Z.

Lemma isPrime_body_exit i : x <= i -> isPrime_body x i = Ok (inr true).
Proof.
  intros H. unfold isPrime_body.
  destruct (Z.ltb_spec i x); [lia | reflexivity].
Qed.

Lemma isPrime_body_hit i :
  2 <= i < x -> Z.rem x i = 0 -> isPrime_body x i = Ok (inr false).
Proof.
  intros H Hr. unfold isPrime_body.
  destruct (Z.ltb_spec i x); [| lia].
  rewrite rem64_Ok by lia. simpl. rewrite Hr. reflexivity.
Qed.

Lemma isPrime_body_next i :
  i < x -> i <> 0 -> i <> -1 -> Z.rem x i <> 0 ->
  isPrime_body x i = Ok (inl (wrap32 (i + 1))).
Proof.
  intros H H0 H1 Hr. unfold isPrime_body.
  destruct (Z.ltb_spec i x); [| lia].
  rewrite rem64_Ok by lia. simpl.
  destruct (Z.eqb_spec (Z.rem x i) 0); [contradiction | reflexivity].
Qed.

(** While the counter stays below [INT_MAX] the loop is plain trial
    division. *)
Lemma isPrime_iter_spec :
  x <= INT_MAX ->
  forall n i, 2 <= i -> Z.of_nat n = x - i ->
  exists b, iter (isPrime_body x) (S n) i = Ok (inr b)
            /\ (b = true <-> forall j, i <= j < x -> Z.rem x j <> 0).
Proof.
  intros Hx. induction n as [| n IH]; intros i Hi Hn.
  - exists true. rewrite iter_S, isPrime_body_exit by lia. split.
    + reflexivity.
    + split; [intros _ j Hj; lia | reflexivity].
  - rewrite iter_S.
    destruct (Z.eq_dec (Z.rem x i) 0) as [Hr | Hr].
    + exists false. rewrite isPrime_body_hit by lia. split.
      * reflexivity.
      * split; [discriminate |].
        intros H. exfalso. apply (H i); [lia | exact Hr].
    + rewrite isPrime_body_next by lia.
      rewrite wrap32_id by (unfold INT_MIN, INT_MAX in *; lia).
      destruct (IH (i + 1)) as [b [E Hb]]; [lia | lia |].
      exists b. split.
      * exact E.
      * rewrite Hb. split; intros H j Hj.
        -- destruct (Z.eq_dec j i) as [-> |]; [exact Hr | apply H; lia].
        -- apply H. lia.
Qed.

Lemma isPrime_spec :
  x <= INT_MAX ->
  exists b, isPrime x = Ok b
            /\ (b = true <-> forall j, 2 <= j < x -> Z.rem x j <> 0).
Proof.
  intros Hx. unfold isPrime.
  destruct (Z_lt_le_dec x 2) as [Hlt | Hge].
  - exists true. split.
    + rewrite (while_iter _ fuel32 1); rewrite ?iter_S.
      * rewrite isPrime_body_exit by lia. reflexivity.
      * rewrite isPrime_body_exit by lia. intros s; discriminate.
      * fuel_lia.
    + split; [intros _ j Hj; lia | reflexivity].
  - destruct (isPrime_iter_spec Hx (Z.to_nat (x - 2)) 2) as [b [E Hb]];
      [lia | lia |].
    exists b. split; [| exact Hb].
    rewrite (while_iter _ fuel32 (S (Z.to_nat (x - 2)))); rewrite ?E.
    + reflexivity.
    + intros s; discriminate.
    + unfold INT_MAX in Hx. fuel_lia.
Qed.

(** Above [INT_MAX] the test [i < x] never fails: the loop cannot leave
    with [true]. *)
Lemma isPrime_iter_large :
  INT_MAX < x ->
  forall n i, i <= INT_MAX -> iter (isPrime_body x) n i <> Ok (inr true).
Proof.
  intros Hx. induction n as [| n IH]; intros i Hi.
  - discriminate.
  - rewrite iter_S. unfold isPrime_body.
    destruct (Z.ltb_spec i x); [| lia].
    destruct (rem64 x i) as [r | | | |]; simpl; try discriminate.
    destruct (r =? 0); simpl; [discriminate |].
    apply IH. apply wrap32_range.
Qed.

Lemma isPrime_true_small : isPrime x = Ok true -> x <= INT_MAX.
Proof.
  unfold isPrime. intros H.
  destruct (Z_lt_le_dec INT_MAX x) as [Hlt | Hle]; [| exact Hle].
  exfalso. apply while_Ok_inv in H.
  revert H. apply isPrime_iter_large; [exact Hlt | unfold INT_MAX; lia].
Qed.
End IsPrime.

(** [isPrime] against mathematical primality. *)
Lemma isPrime_prime x : 2 <= x -> isPrime x = Ok true -> Z.prime x.
Proof.
  intros Hx H. pose proof (isPrime_true_small x H) as Hs.
  destruct (isPrime_spec x Hs) as [b [E Hb]].
  rewrite E in H. injection H as ->.
  split; [lia |]. intros n Hn Hd.
  apply (proj1 Hb eq_refl n); [lia |].
  apply Z.rem_divide; [lia | exact Hd].
Qed.

Lemma prime_isPrime x : Z.prime x -> x <= INT_MAX -> isPrime x = Ok true.
Proof.
  intros [H1 Hp] Hs. destruct (isPrime_spec x Hs) as [b [E Hb]].
  rewrite E. f_equal. apply Hb. intros j Hj Hr.
  apply (Hp j); [lia |]. apply Z.rem_divide; [lia | exact Hr].
Qed.

(** *** The [int] counter on inputs above [INT_MAX] *)

Lemma wrap32_shift z :
  INT_MAX < z <= INT_MAX + 4294967296 -> wrap32 z = z - 4294967296.
Proof.
  unfold wrap32, wrap, INT_MAX. intros H.
  change (2 ^ (32 - 1)) with 2147483648. change (2 ^ 32) with 4294967296.
  change (2 ^ 31) with 2147483648 in H.
  replace (z + 2147483648)
    with (z - 4294967296 + 2147483648 + 1 * 4294967296) by lia.
  rewrite Z_mod_plus_full, Z.mod_small; lia.
Qed.

Lemma wrap32_succ a : wrap32 (wrap32 a + 1) = wrap32 (a + 1).
Proof.
  unfold wrap32, wrap.
  replace ((a + 2 ^ (32 - 1)) mod 2 ^ 32 - 2 ^ (32 - 1) + 1 + 2 ^ (32 - 1))
    with ((a + 2 ^ (32 - 1)) mod 2 ^ 32 + 1) by lia.
  rewrite Zplus_mod_idemp_l. f_equal. f_equal. lia.
Qed.

Section IsPrimeAboveIntMax.
Variable x : Z.
Hypothesis x_large : INT_MAX < x.

Lemma counter_low k :
  Z.of_nat k <= 2147483645 -> counter k = 2 + Z.of_nat k.
Proof.
  intros H. unfold counter. apply wrap32_id. unfold INT_MIN, INT_MAX.
  change (2 ^ 31) with 2147483648. lia.
Qed.

Lemma counter_high k :
  2147483645 < Z.of_nat k <= 4294967293 ->
  counter k = 2 + Z.of_nat k - 4294967296.
Proof.
  intros H. unfold counter. apply wrap32_shift. unfold INT_MAX.
  change (2 ^ 31) with 2147483648. lia.
Qed.

Lemma counter_range k :
  Z.of_nat k < 4294967293 ->
  2 <= Z.abs (counter k) <= 2147483648.
Proof.
  intros H. destruct (Z_le_gt_dec (Z.of_nat k) 2147483645).
  - rewrite counter_low by lia. lia.
  - rewrite counter_high by lia. lia.
Qed.

(** Before the counter reaches [-1] a round either finds a divisor or goes
    on: the test [i < x] cannot fail. *)
Lemma isPrime_body_counter k :
  Z.of_nat k < 4294967293 ->
  isPrime_body x (counter k) = Ok (inr false)
  \/ isPrime_body x (counter k) = Ok (inl (counter (S k))).
Proof.
  intros H. pose proof (counter_range k H) as Hr.
  pose proof (wrap32_range (2 + Z.of_nat k)) as Hw. fold (counter k) in Hw.
  unfold isPrime_body.
  destruct (Z.ltb_spec (counter k) x); [| lia].
  rewrite rem64_Ok by lia. cbn [bind].
  destruct (Z.rem x (counter k) =? 0); [left; reflexivity | right].
  unfold counter. rewrite wrap32_succ. do 3 f_equal. lia.
Qed.

(** At [-1] the remainder is 0. *)
Lemma isPrime_body_last :
  isPrime_body x (counter (Z.to_nat 4294967293)) = Ok (inr false).
Proof.
  rewrite counter_high by lia.
  replace (2 + Z.of_nat (Z.to_nat 4294967293) - 4294967296) with (-1) by lia.
  unfold isPrime_body.
  destruct (Z.ltb_spec (-1) x); [| unfold INT_MAX in *; lia].
  rewrite rem64_Ok by (unfold LLONG_MIN, INT_MAX in *; lia).
  cbn [bind]. rewrite (proj2 (Z.rem_divide x (-1) ltac:(lia))).
  - reflexivity.
  - exists (- x). lia.
Qed.

Lemma isPrime_iter_wrap n : forall k,
  Z.of_nat k + Z.of_nat n = 4294967293 ->
  iter (isPrime_body x) (S n) (counter k) = Ok (inr false).
Proof.
  induction n as [| n IH]; intros k Hk; rewrite iter_S.
  - replace k with (Z.to_nat 4294967293) by lia.
    rewrite isPrime_body_last. reflexivity.
  - destruct (isPrime_body_counter k ltac:(lia)) as [E | E]; rewrite E.
    + reflexivity.
    + cbn [resume bind]. apply IH. lia.
Qed.

(** Every argument above [INT_MAX] is reported not prime. *)
Lemma isPrime_above_INT_MAX : isPrime x = Ok false.
Proof.
  unfold isPrime. change 2 with (counter O).
  rewrite (while_iter _ fuel32 (S (Z.to_nat 4294967293)));
    rewrite ?isPrime_iter_wrap by lia.
  - reflexivity.
  - intros s; discriminate.
  - fuel_lia.
Qed.
End IsPrimeAboveIntMax.

(** [isPrime] returns for every argument. *)
Lemma isPrime_total x : exists b, isPrime x = Ok b.
Proof.
  destruct (Z_le_gt_dec x INT_MAX) as [Hle | Hgt].
  - destruct (isPrime_spec x Hle) as [b [E _]]. exists b. exact E.
  - exists false. apply isPrime_above_INT_MAX. lia.
Qed.

(** What [isPrime] accepts: the primes up to [INT_MAX], and everything
    below 2. *)
Lemma isPrime_true_iff x :
  isPrime x = Ok true <-> x <= INT_MAX /\ (x < 2 \/ Z.prime x).
Proof.
  split.
  - intros H. split; [apply isPrime_true_small; exact H |].
    destruct (Z_lt_le_dec x 2) as [Hlt | Hge]; [left; exact Hlt | right].
    apply isPrime_prime; assumption.
  - intros [Hs [Hlt | Hp]].
    + destruct (isPrime_spec x Hs) as [b [E Hb]]. rewrite E. f_equal.
      apply Hb. intros j Hj. lia.
    + apply prime_isPrime; assumption.
Qed.

Lemma no_divisor_spec x n : forall d,
  0 < d -> no_divisor x n d = true ->
  forall j, d <= j < d + Z.of_nat n -> ~ (j | x).
Proof.
  induction n as [| n IH]; intros d Hd H j Hj.
  - lia.
  - simpl in H. apply andb_prop in H. destruct H as [H1 H2].
    destruct (Z.eq_dec j d) as [-> | Hne].
    + intros Hdiv. apply Z.mod_divide in Hdiv; [| lia].
      rewrite Hdiv in H1. discriminate.
    + apply (IH (d + 1)); [lia | exact H2 | lia].
Qed.

Lemma prime_sqrt x :
  1 < x -> (forall j, 2 <= j -> j * j <= x -> ~ (j | x)) -> Z.prime x.
Proof.
  intros Hx H. split; [exact Hx |].
  intros m Hm [c Hc]. assert (Hc2 : 2 <= c) by nia.
  destruct (Z_le_gt_dec (m * m) x) as [Hle | Hgt].
  - apply (H m); [lia | exact Hle | exists c; exact Hc].
  - apply (H c); [exact Hc2 | nia | exists m; lia].
Qed.

Lemma prime_2147483659 : Z.prime 2147483659.
Proof.
  apply prime_sqrt; [lia |]. intros j Hj Hjj.
  apply (no_divisor_spec 2147483659 (Z.to_nat 46340) 2);
    [lia | vm_compute; reflexivity |].
  destruct (Z_lt_le_dec j 46342) as [Hlt | Hge]; [lia |].
  assert (46342 * 46342 <= j * j) by (apply Z.mul_le_mono_nonneg; lia).
  lia.
Qed.

(** ** [dividerList] *)

Lemma divisors_snoc x k :
  filter (divides_b x) (map Z.of_nat (seq 1 (S k))) =
  filter (divides_b x) (map Z.of_nat (seq 1 k))
    ++ (if divides_b x (1 + Z.of_nat k) then [1 + Z.of_nat k] else []).
Proof.
  rewrite seq_S, map_app, filter_app. f_equal. simpl.
  replace (Z.pos (Pos.of_succ_nat k)) with (1 + Z.of_nat k) by lia.
  reflexivity.
Qed.

Lemma dividerList_spec x :
  0 <= x <= vector_max_size -> dividerList x = Ok (divisors x).
Proof.
  intros Hx. unfold dividerList.
  destruct (Z.ltb_spec x 0); [lia |].
  destruct (Z.ltb_spec vector_max_size x); [lia |]. simpl orb. cbv iota.
  change (1, @nil Z) with (dividerList_state x O).
  assert (Hexit : dividerList_body x (dividerList_state x (Z.to_nat x))
                  = Ok (inr (divisors x))).
  { unfold dividerList_state, dividerList_body.
    destruct (Z.leb_spec (1 + Z.of_nat (Z.to_nat x)) x); [lia | reflexivity]. }
  rewrite (while_trace _ (dividerList_state x) (Z.to_nat x)).
  - rewrite Hexit. reflexivity.
  - intros k Hk. unfold dividerList_state at 1. unfold dividerList_body.
    destruct (Z.leb_spec (1 + Z.of_nat k) x); [| lia].
    rewrite rem64_Ok by lia. cbn [bind]. unfold dividerList_state.
    rewrite divisors_snoc.
    change (divides_b x (1 + Z.of_nat k)) with (Z.rem x (1 + Z.of_nat k) =? 0).
    unfold vector_max_size in Hx. change (2 ^ 60) with 1152921504606846976 in Hx.
    rewrite wrap64_id
      by (unfold in_llong, LLONG_MIN, LLONG_MAX;
          change (2 ^ 63) with 9223372036854775808; lia).
    do 3 f_equal; [lia |].
    destruct (Z.rem x (1 + Z.of_nat k) =? 0);
      [reflexivity | symmetry; apply app_nil_r].
  - rewrite Hexit. intros s; discriminate.
  - unfold vector_max_size in Hx. change (2 ^ 60) with 1152921504606846976 in Hx.
    fuel_lia.
Qed.

Lemma divisors_length x : (length (divisors x) <= Z.to_nat x)%nat.
Proof.
  unfold divisors.
  etransitivity; [apply filter_length_le |].
  rewrite length_map, length_seq. lia.
Qed.

Lemma divisors_In x d : In d (divisors x) <-> 1 <= d <= x /\ Z.rem x d = 0.
Proof.
  unfold divisors. rewrite filter_In, in_map_iff. unfold divides_b.
  rewrite Z.eqb_eq. split.
  - intros [[k [<- Hk]] Hr]. apply in_seq in Hk. split; [lia | exact Hr].
  - intros [Hd Hr]. split; [| exact Hr].
    exists (Z.to_nat d). split; [lia |]. apply in_seq. lia.
Qed.

(** From [1] on, the list starts with [1]; what follows are the divisors
    from [2] on. *)
Lemma divisors_head x :
  1 <= x ->
  divisors x =
  1 :: filter (divides_b x) (map Z.of_nat (seq 2 (Z.to_nat x - 1))).
Proof.
  intros Hx. unfold divisors.
  replace (Z.to_nat x) with (S (Z.to_nat x - 1)) at 1 by lia.
  simpl seq. simpl map. simpl filter.
  unfold divides_b at 1. rewrite Z.rem_1_r. reflexivity.
Qed.

Lemma divisors_tail_In x d :
  1 <= x -> In d (skipn 1 (divisors x)) -> 2 <= d <= x /\ (d | x).
Proof.
  intros Hx. rewrite (divisors_head x Hx). simpl skipn.
  rewrite filter_In, in_map_iff. unfold divides_b. rewrite Z.eqb_eq.
  intros [[k [<- Hk]] Hr]. apply in_seq in Hk.
  split; [lia |]. apply Z.rem_divide; [lia | exact Hr].
Qed.

(** ** [areCoprimes] *)

Lemma skipn_nth_error {A : Type} (l : list A) i x :
  nth_error l i = Some x -> skipn i l = x :: skipn (S i) l.
Proof.
  revert i. induction l as [| y l IH]; intros [| i] H; simpl in H;
    try discriminate.
  - injection H as ->. reflexivity.
  - change (skipn (S i) (y :: l)) with (skipn i l). rewrite (IH i H).
    reflexivity.
Qed.

Section AreCoprimesLoops.
Variables al bl : list Z.

Lemma areCoprimes_inner_iter n : forall i,
  (length al - i = n)%nat ->
  iter (areCoprimes_inner al bl) (S n) i =
  (hit <- clash (skipn i al) (skipn i bl) ;; Ok (inr hit)).
Proof.
  induction n as [| n IH]; intros i Hn; rewrite iter_S;
    set (rest := iter (areCoprimes_inner al bl) _);
    unfold areCoprimes_inner.
  - destruct (Nat.ltb_spec i (length al)); [lia |].
    rewrite (skipn_all2 al) by lia. reflexivity.
  - destruct (Nat.ltb_spec i (length al)); [| lia].
    unfold index.
    destruct (nth_error al i) as [x |] eqn:Ea;
      [| apply nth_error_None in Ea; lia].
    rewrite (skipn_nth_error al i x Ea). cbn [bind clash].
    destruct (nth_error bl i) as [y |] eqn:Eb.
    + rewrite (skipn_nth_error bl i y Eb). cbn [bind].
      destruct (x =? y); [reflexivity |].
      cbn [resume bind]. subst rest. apply IH. lia.
    + apply nth_error_None in Eb. rewrite (skipn_all2 bl) by lia.
      reflexivity.
Qed.

Hypothesis al_short : Z.of_nat (length al) < 18446744073709551616.
Hypothesis bl_short : Z.of_nat (length bl) < 18446744073709551616.

Lemma areCoprimes_inner_spec :
  while (areCoprimes_inner al bl) fuel64 1%nat =
  clash (skipn 1 al) (skipn 1 bl).
Proof.
  rewrite (while_iter _ fuel64 (S (length al - 1))).
  - rewrite areCoprimes_inner_iter by reflexivity.
    destruct (clash (skipn 1 al) (skipn 1 bl)); reflexivity.
  - rewrite areCoprimes_inner_iter by reflexivity.
    destruct (clash (skipn 1 al) (skipn 1 bl)); intros s; discriminate.
  - fuel_lia.
Qed.

Lemma areCoprimes_outer_spec :
  while (areCoprimes_outer al bl) fuel64 1%nat = positional al bl.
Proof.
  unfold positional.
  destruct (Nat.ltb_spec 1 (length bl)) as [Hb | Hb].
  - destruct (clash (skipn 1 al) (skipn 1 bl)) as [[|] | | | |] eqn:Ec.
    2:{ (* the inner loop runs to its end in every round *)
      change 1%nat with ((fun k => S k) O) at 1.
      rewrite (while_trace _ (fun k => S k) (length bl - 1)).
      - unfold areCoprimes_outer.
        destruct (Nat.ltb_spec (S (length bl - 1)) (length bl)); [lia |].
        reflexivity.
      - intros k Hk. unfold areCoprimes_outer.
        destruct (Nat.ltb_spec (S k) (length bl)); [| lia].
        rewrite areCoprimes_inner_spec, Ec. reflexivity.
      - unfold areCoprimes_outer.
        destruct (Nat.ltb_spec (S (length bl - 1)) (length bl)); [lia |].
        intros s; discriminate.
      - fuel_lia. }
    all: rewrite (while_iter _ fuel64 1); rewrite ?iter_S;
      unfold areCoprimes_outer;
      try (destruct (Nat.ltb_spec 1 (length bl)); [| lia];
           rewrite areCoprimes_inner_spec, Ec;
           first [reflexivity | intros s; discriminate]);
      fuel_lia.
  - rewrite (while_iter _ fuel64 1); rewrite ?iter_S;
      unfold areCoprimes_outer;
      try (destruct (Nat.ltb_spec 1 (length bl)); [lia |];
           first [reflexivity | intros s; discriminate]);
      fuel_lia.
Qed.
End AreCoprimesLoops.

Lemma areCoprimes_unit a b : a = 1 \/ b = 1 -> areCoprimes a b = Ok true.
Proof.
  intros H. unfold areCoprimes.
  destruct (Z.eqb_spec a 1), (Z.eqb_spec b 1); simpl; try reflexivity. lia.
Qed.

Lemma areCoprimes_spec a b al bl :
  a <> 1 -> b <> 1 ->
  dividerList a = Ok al -> dividerList b = Ok bl ->
  Z.of_nat (length al) < 18446744073709551616 ->
  Z.of_nat (length bl) < 18446744073709551616 ->
  areCoprimes a b = positional al bl.
Proof.
  intros Ha Hb Ea Eb Hal Hbl. unfold areCoprimes.
  destruct (Z.eqb_spec a 1); [contradiction |].
  destruct (Z.eqb_spec b 1); [contradiction |].
  cbn [orb]. rewrite Ea, Eb. cbn [bind].
  apply areCoprimes_outer_spec; assumption.
Qed.

Lemma areCoprimes_divisors a b :
  a <> 1 -> b <> 1 ->
  0 <= a <= vector_max_size -> 0 <= b <= vector_max_size ->
  areCoprimes a b = positional (divisors a) (divisors b).
Proof.
  intros Ha Hb Ra Rb.
  apply areCoprimes_spec; auto using dividerList_spec.
  - pose proof (divisors_length a). unfold vector_max_size in Ra.
    change (2 ^ 60) with 1152921504606846976 in Ra. lia.
  - pose proof (divisors_length b). unfold vector_max_size in Rb.
    change (2 ^ 60) with 1152921504606846976 in Rb. lia.
Qed.

Lemma dividerList_Ok_inv x l :
  dividerList x = Ok l -> 0 <= x <= vector_max_size /\ l = divisors x.
Proof.
  intros H.
  assert (R : 0 <= x <= vector_max_size).
  { revert H. unfold dividerList.
    destruct (Z.ltb_spec x 0); [discriminate |].
    destruct (Z.ltb_spec vector_max_size x); [discriminate |]. lia. }
  split; [exact R |].
  rewrite (dividerList_spec x R) in H. injection H as <-. reflexivity.
Qed.

Lemma divisors_two x : 1 < x -> (1 < length (divisors x))%nat.
Proof.
  intros Hx.
  assert (Hin : In x (divisors x)).
  { apply divisors_In. split; [lia |]. apply Z.rem_same. lia. }
  rewrite (divisors_head x) in * by lia.
  destruct Hin as [Heq | Hin]; [lia |].
  destruct (filter _ _); [contradiction | simpl; lia].
Qed.

Lemma clash_true al : forall bl,
  clash al bl = Ok true -> exists d, In d al /\ In d bl.
Proof.
  induction al as [| x al IH]; intros [| y bl] H; simpl in H;
    try discriminate.
  destruct (Z.eqb_spec x y) as [-> | _].
  - exists y. split; left; reflexivity.
  - destruct (IH bl H) as [d [Ha Hb]]. exists d. split; right; assumption.
Qed.

Lemma clash_Undefined al : forall bl,
  clash al bl = Undefined <->
  (length bl < length al)%nat /\
  forall i, (i < length bl)%nat -> nth_error al i <> nth_error bl i.
Proof.
  induction al as [| x al IH]; intros [| y bl]; simpl.
  - split; [discriminate | lia].
  - split; [discriminate | lia].
  - split; [intros _ | reflexivity]. split; [lia | intros i Hi; lia].
  - destruct (Z.eqb_spec x y) as [-> | Hne].
    + split; [discriminate |]. intros [_ H]. exfalso.
      apply (H O); [lia | reflexivity].
    + rewrite IH. split; intros [Hl H]; (split; [lia |]).
      * intros [| i] Hi; simpl; [congruence | apply H; lia].
      * intros i Hi. apply (H (S i)). lia.
Qed.

Lemma nth_error_skipn_1 {A : Type} (l : list A) i :
  nth_error (skipn 1 l) i = nth_error l (S i).
Proof. destruct l; [destruct i |]; reflexivity. Qed.

Lemma positional_Undefined al bl :
  (1 < length bl)%nat ->
  positional al bl = Undefined <->
  (length bl < length al)%nat /\
  forall i, (1 <= i < length bl)%nat -> nth_error al i <> nth_error bl i.
Proof.
  intros Hb. unfold positional.
  destruct (Nat.ltb_spec 1 (length bl)) as [_ | Hn]; [| lia].
  assert (E : (hit <- clash (skipn 1 al) (skipn 1 bl) ;; Ok (negb hit))
              = Undefined
              <-> clash (skipn 1 al) (skipn 1 bl) = Undefined).
  { destruct (clash (skipn 1 al) (skipn 1 bl)); simpl;
      split; intros; first [discriminate | reflexivity]. }
  rewrite E, clash_Undefined, !length_skipn.
  split; intros [Hl H]; (split; [lia |]); intros i Hi.
  - destruct i as [| i]; [lia |].
    rewrite <- !nth_error_skipn_1. apply H. lia.
  - rewrite !nth_error_skipn_1. apply H. lia.
Qed.

(** [areCoprimes] never reports a shared divisor that is not there. *)
Lemma areCoprimes_false_sound a b :
  1 <= a -> 1 <= b -> areCoprimes a b = Ok false -> Z.gcd a b <> 1.
Proof.
  intros Ha Hb H.
  destruct (Z.eq_dec a 1) as [-> | Ha1];
    [rewrite areCoprimes_unit in H by auto; discriminate |].
  destruct (Z.eq_dec b 1) as [-> | Hb1];
    [rewrite areCoprimes_unit in H by auto; discriminate |].
  assert (Ra : 0 <= a <= vector_max_size).
  { revert H. unfold areCoprimes, dividerList.
    destruct (Z.eqb_spec a 1); [contradiction |].
    destruct (Z.eqb_spec b 1); [contradiction |]. cbn [orb].
    destruct (Z.ltb_spec a 0); [discriminate |].
    destruct (Z.ltb_spec vector_max_size a); [discriminate |]. lia. }
  assert (Rb : 0 <= b <= vector_max_size).
  { revert H. unfold areCoprimes.
    destruct (Z.eqb_spec a 1); [contradiction |].
    destruct (Z.eqb_spec b 1); [contradiction |]. cbn [orb].
    rewrite (dividerList_spec a Ra). cbn [bind]. unfold dividerList.
    destruct (Z.ltb_spec b 0); [discriminate |].
    destruct (Z.ltb_spec vector_max_size b); [discriminate |]. lia. }
  rewrite areCoprimes_divisors in H by assumption.
  unfold positional in H.
  destruct (1 <? length (divisors b))%nat; [| discriminate].
  destruct (clash (skipn 1 (divisors a)) (skipn 1 (divisors b)))
    as [[|] | | | |] eqn:Ec; try discriminate.
  destruct (clash_true _ _ Ec) as [d [Hda Hdb]].
  apply divisors_tail_In in Hda; [| lia].
  apply divisors_tail_In in Hdb; [| lia].
  intros Hg.
  assert (Hd : (d | 1)).
  { rewrite <- Hg. apply Z.gcd_greatest; tauto. }
  apply Z.divide_1_r in Hd. lia.
Qed.

(** ** [power] *)

Lemma pow_le_top x a b : 0 <= x -> 1 <= a <= b -> 0 <= x ^ a <= x ^ b.
Proof.
  intros Hx Hab. split; [apply Z.pow_nonneg; exact Hx |].
  destruct (Z.eq_dec x 0) as [-> | Hne].
  - rewrite !Z.pow_0_l by lia. lia.
  - apply Z.pow_le_mono_r; lia.
Qed.

Lemma power_spec x exponent :
  0 <= x -> 1 <= exponent <= LLONG_MAX -> x ^ exponent <= LLONG_MAX ->
  power x exponent = Ok (x ^ exponent).
Proof.
  intros Hx He Hfit. unfold power.
  destruct (Z.eqb_spec exponent 0); [lia |].
  replace (1, x) with (power_state x O)
    by (unfold power_state; simpl Z.of_nat; rewrite Z.add_0_r, Z.pow_1_r;
        reflexivity).
  assert (Hexit : power_body x exponent (power_state x (Z.to_nat (exponent - 1)))
                  = Ok (inr (x ^ exponent))).
  { unfold power_state, power_body.
    destruct (Z.ltb_spec (1 + Z.of_nat (Z.to_nat (exponent - 1))) exponent);
      [lia |].
    do 3 f_equal. lia. }
  unfold LLONG_MAX in *. change (2 ^ 63) with 9223372036854775808 in *.
  rewrite (while_trace _ (power_state x) (Z.to_nat (exponent - 1))).
  - rewrite Hexit. reflexivity.
  - intros k Hk. unfold power_state at 1. unfold power_body.
    destruct (Z.ltb_spec (1 + Z.of_nat k) exponent); [| lia].
    unfold power_state.
    pose proof (pow_le_top x (1 + Z.of_nat (S k)) exponent Hx ltac:(lia)) as Hp.
    replace (x ^ (1 + Z.of_nat k) * x) with (x ^ (1 + Z.of_nat (S k))).
    2:{ replace (1 + Z.of_nat (S k)) with (Z.succ (1 + Z.of_nat k)) by lia.
        rewrite Z.pow_succ_r by lia. ring. }
    rewrite !wrap64_id
      by (unfold in_llong, LLONG_MIN, LLONG_MAX;
          change (2 ^ 63) with 9223372036854775808; lia).
    do 3 f_equal. lia.
  - rewrite Hexit. intros s; discriminate.
  - fuel_lia.
Qed.

(** ** The arithmetic behind the round trip *)

Lemma pow_mod_prime p m k :
  Z.prime p -> 0 <= k -> m ^ (1 + k * (p - 1)) mod p = m mod p.
Proof.
  intros Hp Hk. pose proof (Z.prime_ge_2 p Hp) as Hp2.
  rewrite Z.pow_add_r, Z.pow_1_r by nia.
  destruct (Z.eq_dec (m mod p) 0) as [Hz | Hnz].
  - rewrite Z.mul_mod, Hz by lia. rewrite Z.mul_0_l. apply Z.mod_0_l. lia.
  - rewrite (Z.mul_comm k (p - 1)), Z.pow_mul_r by lia.
    rewrite Z.mul_mod by lia.
    rewrite <- (Z.mod_pow_l (m ^ (p - 1)) k p).
    rewrite (Z.fermat_nz p m Hp Hnz), Z.pow_1_l by lia.
    rewrite (Z.mod_small 1 p) by lia. rewrite Z.mul_1_r. apply Z.mod_mod. lia.
Qed.

Lemma rsa_exponents p q m x :
  Z.prime p -> Z.prime q -> p <> q ->
  0 <= x -> x mod ((p - 1) * (q - 1)) = 1 ->
  0 <= m < p * q ->
  m ^ x mod (p * q) = m.
Proof.
  intros Hp Hq Hpq Hx Hinv Hm.
  pose proof (Z.prime_ge_2 p Hp) as Hp2.
  pose proof (Z.prime_ge_2 q Hq) as Hq2.
  set (K := x / ((p - 1) * (q - 1))).
  assert (HK : 0 <= K) by (apply Z.div_pos; nia).
  assert (Ex : x = 1 + K * ((p - 1) * (q - 1))).
  { pose proof (Z.div_mod x ((p - 1) * (q - 1)) ltac:(nia)) as E.
    rewrite Hinv in E. unfold K. lia. }
  assert (Cp : m ^ x mod p = m mod p).
  { rewrite Ex. replace (K * ((p - 1) * (q - 1))) with (K * (q - 1) * (p - 1))
      by ring.
    apply pow_mod_prime; [exact Hp | nia]. }
  assert (Cq : m ^ x mod q = m mod q).
  { rewrite Ex. replace (K * ((p - 1) * (q - 1))) with (K * (p - 1) * (q - 1))
      by ring.
    apply pow_mod_prime; [exact Hq | nia]. }
  apply Z.cong_iff_ex in Cp. destruct Cp as [s Hs].
  apply Z.cong_iff_ex in Cq. destruct Cq as [r Hr].
  assert (Hqs : (q | s)).
  { apply (Z.gauss q p s).
    - exists r. lia.
    - apply Z.coprime_prime_l; [exact Hq |].
      intros Hd. apply (Z.divide_prime_prime q p Hq Hp) in Hd. lia. }
  destruct Hqs as [t Ht].
  rewrite <- (Z.mod_small m (p * q)) at 2 by lia.
  apply Z.cong_iff_ex. exists t. rewrite Hs, Ht. ring.
Qed.

(** ** [phi] *)

Lemma phi_mismatch n p q : wrap64 (p * q) <> n -> phi n p q = AssertFail.
Proof.
  intros H. unfold phi. destruct (Z.eqb_spec (wrap64 (p * q)) n);
    [contradiction | reflexivity].
Qed.

Lemma phi_accept n p q :
  wrap64 (p * q) = n -> isPrime p = Ok true -> isPrime q = Ok true ->
  phi n p q = Ok (phi_value p q).
Proof.
  intros Hn Hp Hq. unfold phi. rewrite Hn, Z.eqb_refl, Hp, Hq. reflexivity.
Qed.

Lemma phi_reject n p q :
  isPrime p = Ok false \/ (isPrime p = Ok true /\ isPrime q = Ok false) ->
  phi n p q = AssertFail.
Proof.
  intros H. unfold phi. destruct (wrap64 (p * q) =? n); [| reflexivity].
  cbn [assert bind].
  destruct H as [Hp | [Hp Hq]]; rewrite Hp; [reflexivity |].
  cbn [bind]. rewrite Hq. reflexivity.
Qed.

Lemma phi_Ok_inv n p q v :
  phi n p q = Ok v ->
  wrap64 (p * q) = n /\ isPrime p = Ok true /\ isPrime q = Ok true
  /\ v = phi_value p q.
Proof.
  unfold phi. intros H.
  destruct (Z.eqb_spec (wrap64 (p * q)) n) as [Hn | _];
    [| discriminate].
  cbn [assert bind] in H.
  destruct (isPrime p) as [[|] | | | |]; cbn [bind] in H; try discriminate.
  destruct (isPrime q) as [[|] | | | |]; cbn [bind assert] in H;
    try discriminate.
  injection H as <-. auto.
Qed.

(** On primes the wrapped products are the exact ones. *)
Lemma prime_products p q :
  Z.prime p -> Z.prime q -> p <= INT_MAX -> q <= INT_MAX ->
  wrap64 (p * q) = p * q /\ phi_value p q = (p - 1) * (q - 1).
Proof.
  intros Hp Hq Hps Hqs.
  pose proof (Z.prime_ge_2 p Hp). pose proof (Z.prime_ge_2 q Hq).
  unfold INT_MAX in *. change (2 ^ 31) with 2147483648 in *.
  assert (R : forall z, 0 <= z <= 2147483647 * 2147483647 -> in_llong z).
  { intros z Hz. unfold in_llong, LLONG_MIN, LLONG_MAX.
    change (2 ^ 63) with 9223372036854775808. lia. }
  unfold phi_value.
  rewrite (wrap64_id (p * q)), (wrap64_id (p - 1)), (wrap64_id (q - 1)),
    (wrap64_id ((p - 1) * (q - 1))) by (apply R; nia).
  auto.
Qed.

(** ** [publicKey] *)

Section PublicKeyScan.
Variable n_eulero : Z.
Hypothesis n_eulero_range : in_llong n_eulero.

Lemma publicKey_body_next i :
  2 <= i < n_eulero -> areCoprimes i n_eulero = Ok false ->
  publicKey_body n_eulero i = Ok (inl (i + 1)).
Proof.
  intros Hi Hc. unfold publicKey_body.
  destruct (Z.ltb_spec i n_eulero); [| lia].
  rewrite Hc. cbn [bind]. rewrite wrap64_id; [reflexivity |].
  unfold in_llong, LLONG_MIN, LLONG_MAX in *.
  change (2 ^ 63) with 9223372036854775808 in *. lia.
Qed.

(** What the scan has seen when it leaves with [e]. *)
Lemma publicKey_iter_inv n : forall i e,
  2 <= i ->
  iter (publicKey_body n_eulero) n i = Ok (inr e) ->
  (e = 0 /\ forall j, i <= j < n_eulero -> areCoprimes j n_eulero = Ok false)
  \/ (i <= e < n_eulero /\ areCoprimes e n_eulero = Ok true
      /\ forall j, i <= j < e -> areCoprimes j n_eulero = Ok false).
Proof.
  induction n as [| n IH]; intros i e Hi H.
  - discriminate.
  - rewrite iter_S in H. unfold publicKey_body at 2 in H.
    destruct (Z.ltb_spec i n_eulero) as [Hlt | Hge].
    + destruct (areCoprimes i n_eulero) as [[|] | | | |] eqn:Ec;
        cbn [bind resume] in H; try discriminate.
      * injection H as <-. right. split; [lia |]. split; [exact Ec |].
        intros j Hj. lia.
      * rewrite wrap64_id in H
          by (unfold in_llong, LLONG_MIN, LLONG_MAX in *;
              change (2 ^ 63) with 9223372036854775808 in *; lia).
        destruct (IH (i + 1) e ltac:(lia) H) as [[He Hall] | [He [Hc Hall]]].
        -- left. split; [exact He |]. intros j Hj.
           destruct (Z.eq_dec j i) as [-> |]; [exact Ec | apply Hall; lia].
        -- right. split; [lia |]. split; [exact Hc |]. intros j Hj.
           destruct (Z.eq_dec j i) as [-> |]; [exact Ec | apply Hall; lia].
    + cbn [bind resume] in H. injection H as <-. left.
      split; [reflexivity |]. intros j Hj. lia.
Qed.

(** The scan leaves with the first candidate that [areCoprimes] accepts. *)
Lemma publicKey_scan_first e :
  2 <= e < n_eulero -> areCoprimes e n_eulero = Ok true ->
  (forall j, 2 <= j < e -> areCoprimes j n_eulero = Ok false) ->
  while (publicKey_body n_eulero) fuel64 2 = Ok e.
Proof.
  intros He Hc Hall.
  assert (Hexit : publicKey_body n_eulero (2 + Z.of_nat (Z.to_nat (e - 2)))
                  = Ok (inr e)).
  { replace (2 + Z.of_nat (Z.to_nat (e - 2))) with e by lia.
    unfold publicKey_body. destruct (Z.ltb_spec e n_eulero); [| lia].
    rewrite Hc. reflexivity. }
  change 2 with ((fun k => 2 + Z.of_nat k) O) at 1.
  rewrite (while_trace _ (fun k => 2 + Z.of_nat k) (Z.to_nat (e - 2))).
  - rewrite Hexit. reflexivity.
  - intros k Hk. rewrite publicKey_body_next; [| lia | apply Hall; lia].
    do 2 f_equal. lia.
  - rewrite Hexit. intros s; discriminate.
  - unfold in_llong, LLONG_MIN, LLONG_MAX in *.
    change (2 ^ 63) with 9223372036854775808 in *. fuel_lia.
Qed.

(** When [areCoprimes] accepts no candidate the scan ends at [n_eulero] and
    [e] keeps its initial value. *)
Lemma publicKey_scan_none :
  (forall j, 2 <= j < n_eulero -> areCoprimes j n_eulero = Ok false) ->
  while (publicKey_body n_eulero) fuel64 2 = Ok 0.
Proof.
  intros Hall.
  assert (Hexit : publicKey_body n_eulero
                    (2 + Z.of_nat (Z.to_nat (n_eulero - 2))) = Ok (inr 0)).
  { unfold publicKey_body.
    destruct (Z.ltb_spec (2 + Z.of_nat (Z.to_nat (n_eulero - 2))) n_eulero);
      [lia | reflexivity]. }
  change 2 with ((fun k => 2 + Z.of_nat k) O) at 1.
  rewrite (while_trace _ (fun k => 2 + Z.of_nat k) (Z.to_nat (n_eulero - 2))).
  - rewrite Hexit. reflexivity.
  - intros k Hk. rewrite publicKey_body_next; [| lia | apply Hall; lia].
    do 2 f_equal. lia.
  - rewrite Hexit. intros s; discriminate.
  - unfold in_llong, LLONG_MIN, LLONG_MAX in *.
    change (2 ^ 63) with 9223372036854775808 in *. fuel_lia.
Qed.
End PublicKeyScan.

Lemma publicKey_accept p q e :
  isPrime p = Ok true -> isPrime q = Ok true ->
  while (publicKey_body (phi_value p q)) fuel64 2 = Ok e ->
  publicKey p q = Ok (Key.mkPublic (wrap64 (p * q)) e).
Proof.
  intros Hp Hq He. unfold publicKey.
  rewrite Hp. cbn [bind]. rewrite Hq. cbn [bind assert].
  rewrite (phi_accept _ p q eq_refl Hp Hq). cbn [bind].
  rewrite He. reflexivity.
Qed.

Lemma publicKey_reject p q :
  isPrime p = Ok false \/ (isPrime p = Ok true /\ isPrime q = Ok false) ->
  publicKey p q = AssertFail.
Proof.
  intros H. unfold publicKey.
  destruct H as [Hp | [Hp Hq]]; rewrite Hp; [reflexivity |].
  cbn [bind]. rewrite Hq. reflexivity.
Qed.

Lemma publicKey_Ok_inv p q pk :
  publicKey p q = Ok pk ->
  isPrime p = Ok true /\ isPrime q = Ok true
  /\ Key.n pk = wrap64 (p * q)
  /\ (Key.e pk = 0 \/ 2 <= Key.e pk < phi_value p q).
Proof.
  unfold publicKey. intros H.
  destruct (isPrime p) as [[|] | | | |] eqn:Hp; cbn [bind] in H;
    try discriminate.
  destruct (isPrime q) as [[|] | | | |] eqn:Hq; cbn [bind assert] in H;
    try discriminate.
  rewrite (phi_accept _ p q eq_refl Hp Hq) in H. cbn [bind] in H.
  apply bind_Ok_inv in H. destruct H as [e [He H]].
  injection H as <-. cbn [Key.n Key.e].
  repeat split; try reflexivity.
  apply while_Ok_inv in He.
  apply publicKey_iter_inv in He; [| apply wrap64_range | lia].
  destruct He as [[He _] | [He _]]; [left; exact He | right; exact He].
Qed.

(** ** [privateKey] *)

Lemma llong_of_double_range f t : Fp.llong_of_double f = Ok t -> in_llong t.
Proof.
  unfold Fp.llong_of_double. destruct f as [s | s | | s m e]; intros H;
    try discriminate.
  - injection H as <-. unfold in_llong, LLONG_MIN, LLONG_MAX.
    change (2 ^ 63) with 9223372036854775808. lia.
  - destruct ((LLONG_MIN <=? _) && (_ <=? LLONG_MAX)) eqn:E in H;
      [| discriminate].
    injection H as <-. apply andb_prop in E. destruct E as [E1 E2].
    apply Z.leb_le in E1, E2. split; assumption.
Qed.

Lemma privateKey_iter_range e n_eulero n : forall k d,
  iter (privateKey_body e n_eulero) n k = Ok (inr d) -> in_llong d.
Proof.
  induction n as [| n IH]; intros k d H.
  - discriminate.
  - rewrite iter_S in H. unfold privateKey_body at 2 in H. cbv zeta in H.
    destruct (Fp.llong_of_double _) as [t | | | |] eqn:Et in H;
      cbn [bind resume] in H; try discriminate.
    destruct (Fp.fleb _ _) in H; cbn [bind resume] in H.
    + injection H as <-. apply (llong_of_double_range _ _ Et).
    + apply (IH _ _ H).
Qed.

Lemma privateKey_Ok_inv p q pk sk :
  privateKey p q pk = Ok sk ->
  Key.p sk = p /\ Key.q sk = q /\ in_llong (Key.d sk).
Proof.
  unfold privateKey. intros H.
  apply bind_Ok_inv in H. destruct H as [pp [_ H]].
  apply bind_Ok_inv in H. destruct H as [qq [_ H]].
  apply bind_Ok_inv in H. destruct H as [u [_ H]].
  apply bind_Ok_inv in H. destruct H as [ph [_ H]].
  apply bind_Ok_inv in H. destruct H as [d [Hd H]].
  injection H as <-. cbn [Key.p Key.q Key.d].
  split; [reflexivity | split; [reflexivity |]].
  apply while_Ok_inv in Hd.
  apply (privateKey_iter_range _ _ _ _ _ Hd).
Qed.

(** ** [encode] and [decode] *)

Lemma rem64_mod a b : 0 <= a -> 0 < b -> rem64 a b = Ok (a mod b).
Proof.
  intros Ha Hb. rewrite rem64_Ok; [| lia | unfold LLONG_MIN; lia].
  rewrite Z.rem_mod_nonneg by lia. reflexivity.
Qed.

Lemma encode_spec n e m :
  0 < n -> 1 <= e <= LLONG_MAX -> 0 <= m -> m ^ e <= LLONG_MAX ->
  encode (Key.mkPublic n e) m = Ok (m ^ e mod n).
Proof.
  intros Hn He Hm Hfit. unfold encode. cbn [Key.n Key.e].
  rewrite power_spec by assumption. cbn [bind].
  apply rem64_mod; [apply Z.pow_nonneg; exact Hm | exact Hn].
Qed.

Lemma decode_spec n e p q d c :
  0 < n -> 1 <= d <= LLONG_MAX -> 0 <= c -> c ^ d <= LLONG_MAX ->
  decode (Key.mkPublic n e) (Key.mkPrivate p q d) c = Ok (c ^ d mod n).
Proof.
  intros Hn Hd Hc Hfit. unfold decode. cbn [Key.n Key.d].
  rewrite power_spec by assumption. cbn [bind].
  apply rem64_mod; [apply Z.pow_nonneg; exact Hc | exact Hn].
Qed.

(** ** More on [isPrime], [phi] and [publicKey] *)

Lemma isPrime_below_2 x : x < 2 -> isPrime x = Ok true.
Proof.
  intros Hx. destruct (isPrime_spec x) as [b [E Hb]];
    [unfold INT_MAX; lia |].
  rewrite E. f_equal. apply Hb. intros j Hj. lia.
Qed.

Lemma isPrime_composite x d :
  x <= INT_MAX -> 2 <= d < x -> (d | x) -> isPrime x = Ok false.
Proof.
  intros Hx Hd Hdiv. destruct (isPrime_spec x Hx) as [b [E Hb]].
  rewrite E. f_equal. destruct b; [| reflexivity].
  exfalso. apply (proj1 Hb eq_refl d Hd).
  apply Z.rem_divide; [lia | exact Hdiv].
Qed.

Lemma phi_primes p q :
  Z.prime p -> Z.prime q -> p <= INT_MAX -> q <= INT_MAX ->
  phi (p * q) p q = Ok ((p - 1) * (q - 1)).
Proof.
  intros Hp Hq Hps Hqs.
  destruct (prime_products p q Hp Hq Hps Hqs) as [Wn Wphi].
  rewrite (phi_accept (p * q) p q Wn); [rewrite Wphi; reflexivity | |];
    apply prime_isPrime; assumption.
Qed.

Lemma publicKey_composite p q d :
  p <= INT_MAX -> 2 <= d < p -> (d | p) -> publicKey p q = AssertFail.
Proof.
  intros Hp Hd Hdiv. apply publicKey_reject. left.
  apply (isPrime_composite p d); assumption.
Qed.

(** [publicKey] returns the first candidate that [areCoprimes] accepts. *)
Lemma publicKey_first_accepted p q e :
  isPrime p = Ok true -> isPrime q = Ok true ->
  2 <= e < phi_value p q ->
  areCoprimes e (phi_value p q) = Ok true ->
  (forall j, 2 <= j < e -> areCoprimes j (phi_value p q) = Ok false) ->
  publicKey p q = Ok (Key.mkPublic (wrap64 (p * q)) e).
Proof.
  intros Hp Hq He Hc Hall. apply publicKey_accept; try assumption.
  apply publicKey_scan_first; try assumption. apply wrap64_range.
Qed.

(** *** The exponent chosen for an even [phi]

    When [phi] is even and at least 4 its divisor list starts [1; 2; ...]:
    the candidate 2 (list [1; 2]) is rejected and the candidate 3 (list
    [1; 3]) is accepted, whatever the other divisors of [phi] are. *)

Lemma divisors_even x :
  2 <= x -> Z.rem x 2 = 0 -> exists rest, divisors x = 1 :: 2 :: rest.
Proof.
  intros Hx Hr. rewrite (divisors_head x) by lia.
  replace (Z.to_nat x - 1)%nat with (S (Z.to_nat x - 2)) by lia.
  cbn [seq map filter]. unfold divides_b at 1.
  change (Z.of_nat 2) with 2. rewrite Hr. cbn [Z.eqb].
  eexists. reflexivity.
Qed.

Lemma areCoprimes_even_phi n_eulero :
  4 <= n_eulero <= vector_max_size -> Z.rem n_eulero 2 = 0 ->
  areCoprimes 2 n_eulero = Ok false /\ areCoprimes 3 n_eulero = Ok true.
Proof.
  intros Hn Hr.
  assert (R : forall a, 0 <= a <= 3 -> 0 <= a <= vector_max_size).
  { intros a Ha. unfold vector_max_size in *.
    change (2 ^ 60) with 1152921504606846976 in *. lia. }
  assert (Rn : 0 <= n_eulero <= vector_max_size) by lia.
  destruct (divisors_even n_eulero ltac:(lia) Hr) as [rest E].
  split; rewrite areCoprimes_divisors
    by first [exact Rn | lia | apply R; lia];
    rewrite E; reflexivity.
Qed.

Lemma publicKey_even_phi p q :
  isPrime p = Ok true -> isPrime q = Ok true ->
  4 <= phi_value p q <= vector_max_size -> Z.rem (phi_value p q) 2 = 0 ->
  publicKey p q = Ok (Key.mkPublic (wrap64 (p * q)) 3).
Proof.
  intros Hp Hq Hn Hr.
  destruct (areCoprimes_even_phi _ Hn Hr) as [H2 H3].
  apply publicKey_first_accepted; try assumption; [lia |].
  intros j Hj. replace j with 2 by lia. exact H2.
Qed.

(** * The claims of the specification *)

(** A closed equation is settled by running both sides. *)
Ltac evaluate :=
  match goal with
  | |- @eq _ _ _ => vm_compute; reflexivity
  end.

Lemma prime_5 : Z.prime 5.
Proof. apply isPrime_prime; [lia | vm_compute; reflexivity]. Qed.

Lemma prime_11 : Z.prime 11.
Proof. apply isPrime_prime; [lia | vm_compute; reflexivity]. Qed.

(** ** C1: the round trip *)

(** C1: the code does not decode what it encoded.  For the primes 5 and 11
    and the message 2 the generated keys are [e = 3] and [d = 27], which
    are inverse modulo [phi = 40]; [encode] gives 8, and in [decode] the
    power [8^27 = 2^81] computed by [power] in a [long long int] wraps
    around to 0, so the decoded value is 0 and not 2, against the claim and
    against what [decode] is written to do (line 192). *)
Lemma roundtrip_fails_5_11 :
  Z.prime 5 /\ Z.prime 11 /\ 0 < 2 < 5 * 11 /\
  publicKey 5 11 = Ok (Key.mkPublic 55 3) /\
  privateKey 5 11 (Key.mkPublic 55 3) = Ok (Key.mkPrivate 5 11 27) /\
  encode (Key.mkPublic 55 3) 2 = Ok 8 /\
  decode (Key.mkPublic 55 3) (Key.mkPrivate 5 11 27) 8 = Ok 0.
Proof.
  split; [exact prime_5 |]. split; [exact prime_11 |]. split; [lia |].
  repeat apply conj; evaluate.
Qed.

(** The round trip also fails when the two primes are equal: with
    [p = q = 3] the message 3 is encoded to 0. *)
Lemma roundtrip_fails_3_3 :
  publicKey 3 3 = Ok (Key.mkPublic 9 3) /\
  privateKey 3 3 (Key.mkPublic 9 3) = Ok (Key.mkPrivate 3 3 3) /\
  encode (Key.mkPublic 9 3) 3 = Ok 0 /\
  decode (Key.mkPublic 9 3) (Key.mkPrivate 3 3 3) 0 = Ok 0.
Proof. repeat apply conj; evaluate. Qed.

(** With the exponent [e = 3] that [publicKey 5 7] returns, no private
    exponent decodes the encoding [2^3 mod 35 = 8] of the message 2: the
    powers of 8 modulo 35 are 1, 8, 29 and 22. *)
Lemma powers_of_8_mod_35 n :
  8 ^ Z.of_nat n mod 35 = 1 \/ 8 ^ Z.of_nat n mod 35 = 8 \/
  8 ^ Z.of_nat n mod 35 = 29 \/ 8 ^ Z.of_nat n mod 35 = 22.
Proof.
  induction n as [| n IH].
  - left. reflexivity.
  - rewrite Nat2Z.inj_succ, Z.pow_succ_r, Z.mul_mod by lia.
    destruct IH as [E | [E | [E | E]]]; rewrite E; vm_compute; tauto.
Qed.

Lemma no_decoding_exponent_5_7 d : 0 <= d -> (2 ^ 3 mod 35) ^ d mod 35 <> 2.
Proof.
  intros Hd. change (2 ^ 3 mod 35) with 8.
  rewrite <- (Z2Nat.id d Hd).
  destruct (powers_of_8_mod_35 (Z.to_nat d)) as [E | [E | [E | E]]];
    rewrite E; discriminate.
Qed.

(** Where the round trip does hold: for distinct primes [p], [q] and the
    keys generated from them, if the exponents satisfy [e * d mod phi = 1]
    with [d] positive and the two powers [m^e] and [c^d] fit a signed
    64-bit integer, then every message [m] with [0 < m < p * q] is decoded
    from its encoding. *)
Theorem roundtrip p q m pk sk :
  Z.prime p -> Z.prime q -> p <> q ->
  publicKey p q = Ok pk -> privateKey p q pk = Ok sk ->
  0 < Key.d sk ->
  (Key.e pk * Key.d sk) mod ((p - 1) * (q - 1)) = 1 ->
  0 < m < p * q ->
  m ^ Key.e pk <= LLONG_MAX ->
  (m ^ Key.e pk mod (p * q)) ^ Key.d sk <= LLONG_MAX ->
  exists c, encode pk m = Ok c /\ decode pk sk c = Ok m.
Proof.
  intros Hp Hq Hpq Epk Esk Hd Hinv Hm Hfe Hfd.
  destruct (publicKey_Ok_inv _ _ _ Epk) as [Ip [Iq [Hn He]]].
  destruct (privateKey_Ok_inv _ _ _ _ Esk) as [_ [_ Rd]].
  pose proof (isPrime_true_small p Ip) as Sp.
  pose proof (isPrime_true_small q Iq) as Sq.
  destruct (prime_products p q Hp Hq Sp Sq) as [Wn Wphi].
  rewrite Wn in Hn. rewrite Wphi in He.
  pose proof (Z.prime_ge_2 p Hp) as Hp2.
  pose proof (Z.prime_ge_2 q Hq) as Hq2.
  destruct pk as [n e], sk as [p' q' d]. cbn [Key.n Key.e Key.d] in *.
  subst n.
  assert (He2 : 2 <= e < (p - 1) * (q - 1)).
  { destruct He as [-> | He]; [| exact He].
    rewrite Z.mul_0_l, Zmod_0_l in Hinv. discriminate. }
  assert (Hphi : (p - 1) * (q - 1) <= 2147483646 * 2147483646).
  { unfold INT_MAX in *. change (2 ^ 31) with 2147483648 in *.
    apply Z.mul_le_mono_nonneg; lia. }
  assert (Rd' : 1 <= d <= LLONG_MAX) by (destruct Rd; lia).
  assert (Re : 1 <= e <= LLONG_MAX).
  { unfold LLONG_MAX. change (2 ^ 63) with 9223372036854775808. lia. }
  assert (Hn : 0 < p * q) by nia.
  exists (m ^ e mod (p * q)). split.
  - apply encode_spec; try assumption. lia.
  - rewrite decode_spec; try assumption.
    + f_equal. rewrite Z.mod_pow_l, <- Z.pow_mul_r by lia.
      apply rsa_exponents; try assumption; [nia | lia].
    + apply Z.mod_pos_bound. exact Hn.
Qed.

Lemma roundtrip_witness :
  exists c,
    encode (Key.mkPublic 33 3) 7 = Ok c /\
    decode (Key.mkPublic 33 3) (Key.mkPrivate 3 11 7) c = Ok 7.
Proof.
  apply (roundtrip 3 11 7 (Key.mkPublic 33 3) (Key.mkPrivate 3 11 7)).
  - exact Z.prime_3.
  - exact prime_11.
  - lia.
  - vm_compute. reflexivity.
  - vm_compute. reflexivity.
  - simpl. lia.
  - vm_compute. reflexivity.
  - lia.
  - vm_compute. discriminate.
  - vm_compute. discriminate.
Defined.

(** ** C2: the chain for [p = 3], [q = 11] *)

(** C2: [publicKey 3 11] gives [n = 33] and [e = 3] with [phi = 20];
    [privateKey] gives [d = 7], the solution of [3 * d mod 20 = 1];
    [encode] of 7 gives [7^3 mod 33 = 13] and [decode] of 13 gives
    [13^7 mod 33 = 7]. *)
Theorem chain_3_11 :
  publicKey 3 11 = Ok (Key.mkPublic 33 3) /\
  phi 33 3 11 = Ok 20 /\
  privateKey 3 11 (Key.mkPublic 33 3) = Ok (Key.mkPrivate 3 11 7) /\
  (3 * 7) mod 20 = 1 /\
  encode (Key.mkPublic 33 3) 7 = Ok 13 /\
  7 ^ 3 mod 33 = 13 /\
  decode (Key.mkPublic 33 3) (Key.mkPrivate 3 11 7) 13 = Ok 7 /\
  13 ^ 7 mod 33 = 7.
Proof. repeat apply conj; evaluate. Qed.

(** ** C3: [areCoprimes] against the greatest common divisor *)

(** C3 on the code: for 3 and 24 (divisor lists [1; 3] and
    [1; 2; 3; 4; 6; 8; 12; 24]) the only comparison is [3] against [2], so
    [areCoprimes] returns [true] although the greatest common divisor is 3;
    when either argument is 1 it does return [true]. *)
Theorem areCoprimes_3_24 :
  dividerList 3 = Ok [1; 3] /\
  dividerList 24 = Ok [1; 2; 3; 4; 6; 8; 12; 24] /\
  areCoprimes 3 24 = Ok true /\
  Z.gcd 3 24 = 3 /\
  areCoprimes 1 24 = Ok true /\
  areCoprimes 24 1 = Ok true.
Proof. repeat apply conj; evaluate. Qed.

(** ** C4: the public exponent *)

(** C4 on the code: [publicKey 3 11] returns [e = 3] after rejecting 2, but
    [publicKey 5 7] returns [e = 3] as well, which is not coprime with
    [phi = 24]; the smallest coprime exponent there is 5. *)
Theorem publicKey_5_7 :
  publicKey 3 11 = Ok (Key.mkPublic 33 3) /\
  areCoprimes 2 20 = Ok false /\
  publicKey 5 7 = Ok (Key.mkPublic 35 3) /\
  phi 35 5 7 = Ok 24 /\
  Z.gcd 3 24 = 3 /\ Z.gcd 4 24 = 4 /\ Z.gcd 5 24 = 1.
Proof. repeat apply conj; evaluate. Qed.

(** ** C5: the private exponent *)

(** C5 on the code: for the primes 5 and 7 the generated public exponent is
    3 and [phi] is 24; no [d] satisfies [3 * d mod 24 = 1], and the search
    of [privateKey] is still running after a thousand rounds. *)
Theorem privateKey_5_7 :
  publicKey 5 7 = Ok (Key.mkPublic 35 3) /\
  phi 35 5 7 = Ok 24 /\
  Z.gcd 3 24 = 3 /\
  (forall d, ((3 * d) mod 24 =? 1) = false) /\
  iter (privateKey_body 3 24) 1000 1 = Ok (inl 1001).
Proof.
  repeat apply conj; try evaluate.
  intros d. apply Z.eqb_neq. intros H.
  pose proof (Z.div_mod (3 * d) 24 ltac:(lia)) as E.
  rewrite H in E. lia.
Qed.

(** ** C6: no public exponent *)

Lemma gcd_pred n : Z.gcd (n - 1) n = 1.
Proof.
  pose proof (Z.gcd_nonneg (n - 1) n) as Hg.
  assert (Hd : (Z.gcd (n - 1) n | n - (n - 1)))
    by (apply Z.divide_sub_r; [apply Z.gcd_divide_r | apply Z.gcd_divide_l]).
  replace (n - (n - 1)) with 1 in Hd by ring.
  apply Z.divide_1_r in Hd. lia.
Qed.

(** C6, as stated, fails: for the primes 2 and 3, [phi] is 2 and no
    exponent lies in [2, 2), yet [publicKey] returns the key [{6, 0}]
    instead of failing. *)
Lemma publicKey_2_3 :
  isPrime 2 = Ok true /\ isPrime 3 = Ok true /\
  phi 6 2 3 = Ok 2 /\
  publicKey 2 3 = Ok (Key.mkPublic 6 0).
Proof. repeat apply conj; evaluate. Qed.

(** C6, amended: when no exponent [e] with [2 <= e < phi] is coprime with
    [phi], the scan of [publicKey] ends and the call returns the key with
    [n = p * q] (in 64 bits) and [e = 0], the initial value of [e]; no
    error is raised. *)
Theorem publicKey_no_exponent p q n_eulero :
  phi (wrap64 (p * q)) p q = Ok n_eulero ->
  (forall e, 2 <= e < n_eulero -> Z.gcd e n_eulero <> 1) ->
  publicKey p q = Ok (Key.mkPublic (wrap64 (p * q)) 0).
Proof.
  intros Hphi Hnone.
  destruct (phi_Ok_inv _ _ _ _ Hphi) as [_ [Hp [Hq ->]]].
  assert (Hsmall : phi_value p q <= 2).
  { destruct (Z_le_gt_dec (phi_value p q) 2) as [Hle | Hgt]; [exact Hle |].
    exfalso. apply (Hnone (phi_value p q - 1)); [lia | apply gcd_pred]. }
  apply publicKey_accept; try assumption.
  apply publicKey_scan_none; [apply wrap64_range |].
  intros j Hj. lia.
Qed.

Lemma publicKey_no_exponent_witness :
  publicKey 2 3 = Ok (Key.mkPublic (wrap64 (2 * 3)) 0).
Proof.
  apply (publicKey_no_exponent 2 3 2).
  - vm_compute. reflexivity.
  - intros e He. lia.
Defined.

(** ** C7: the assertions of [phi] and of key generation *)

(** C7 on the code: [phi 15 3 5] is 8, [phi 14 3 5] fails its assertion
    and key generation with [p = 4] fails its assertion; but key generation
    with the non-prime [p = 1] passes the assertions and returns the key
    [{5, 0}]. *)
Theorem phi_and_publicKey_assertions :
  phi 15 3 5 = Ok 8 /\
  phi 14 3 5 = AssertFail /\
  (forall q, publicKey 4 q = AssertFail) /\
  isPrime 1 = Ok true /\
  publicKey 1 5 = Ok (Key.mkPublic 5 0).
Proof.
  repeat apply conj; try evaluate.
  intros q. apply (publicKey_composite 4 q 2).
  - unfold INT_MAX. lia.
  - lia.
  - exists 2. reflexivity.
Qed.

(** ** C8: [isPrime] on 2, 1, 17 and 15 *)

(** C8 on the code: [isPrime] returns [true] for 2 and for 17 and [false]
    for 15, but for 1 the loop is not entered and it returns [true]. *)
Theorem isPrime_examples :
  isPrime 2 = Ok true /\ isPrime 1 = Ok true /\
  isPrime 17 = Ok true /\ isPrime 15 = Ok false.
Proof. repeat apply conj; evaluate. Qed.

(** ** C9: [isPrime] as trial division *)

(** C9 on the code: 2147483659 is prime, so no [i] with
    [2 <= i < 2147483659] divides it, but the [int] counter of [isPrime]
    cannot reach it: after [INT_MAX] it continues (in two's complement)
    from [INT_MIN], and at [i = -1] the remainder is 0, so [isPrime]
    returns [false]. *)
Theorem isPrime_2147483659 :
  Z.prime 2147483659 /\ isPrime 2147483659 = Ok false.
Proof.
  pose proof prime_2147483659 as [H1 Hp]. split.
  - split; assumption.
  - apply isPrime_above_INT_MAX.
    unfold INT_MAX. change (2 ^ 31) with 2147483648. lia.
Qed.

(** ** C10: the index into the second divisor list *)

(** C10, as stated, fails on its own example: 12 has six divisors and 4 has
    three, but [areCoprimes 12 4] returns [false] at index 1 (both lists
    hold 2 there) and no index outside the second list is read. *)
Lemma areCoprimes_12_4 :
  dividerList 12 = Ok [1; 2; 3; 4; 6; 12] /\
  dividerList 4 = Ok [1; 2; 4] /\
  areCoprimes 12 4 = Ok false.
Proof. repeat apply conj; evaluate. Qed.

(** C10, amended: for [a, b > 1], [areCoprimes a b] reads the second list
    outside its bounds exactly when the list of [a] is longer than the list
    of [b] and the two lists differ at every index from 1 up to the length
    of the list of [b]; this is reachable, for instance with 15 and 4. *)
Theorem areCoprimes_out_of_bounds a b al bl :
  1 < a -> 1 < b ->
  dividerList a = Ok al -> dividerList b = Ok bl ->
  (areCoprimes a b = Undefined <->
   (length bl < length al)%nat /\
   forall i, (1 <= i < length bl)%nat -> nth_error al i <> nth_error bl i).
Proof.
  intros Ha Hb Ea Eb.
  destruct (dividerList_Ok_inv a al Ea) as [Ra ->].
  destruct (dividerList_Ok_inv b bl Eb) as [Rb ->].
  rewrite areCoprimes_divisors by (assumption || lia).
  apply positional_Undefined. apply divisors_two. exact Hb.
Qed.

Lemma areCoprimes_out_of_bounds_witness : areCoprimes 15 4 = Undefined.
Proof.
  apply (proj2 (areCoprimes_out_of_bounds 15 4 [1; 3; 5; 15] [1; 2; 4]
                  ltac:(lia) ltac:(lia)
                  ltac:(vm_compute; reflexivity)
                  ltac:(vm_compute; reflexivity))).
  split.
  - simpl. lia.
  - intros i Hi. simpl in Hi.
    destruct i as [| [| [| i]]]; simpl; try lia; discriminate.
Defined.

(** * Further properties of the code *)

(** ** [isPrime] (lines 28-33) *)

(** X1: as long as the argument fits the [int] counter ([x <= INT_MAX]),
    [isPrime] returns [true] exactly for the numbers below 2 and for the
    primes. *)
Theorem isPrime_on_int_range x :
  x <= INT_MAX ->
  (isPrime x = Ok true <-> x < 2 \/ Z.prime x)
  /\ (isPrime x = Ok false <-> 2 <= x /\ ~ Z.prime x).
Proof.
  intros Hx. destruct (isPrime_spec x Hx) as [b [E Hb]].
  assert (T : isPrime x = Ok true <-> x < 2 \/ Z.prime x).
  { rewrite isPrime_true_iff. tauto. }
  split; [exact T |].
  rewrite E in *. destruct b.
  - split; [discriminate |]. intros [H2 Hn].
    destruct (proj1 T eq_refl) as [Hlt | Hp]; [lia | contradiction].
  - split; [| reflexivity]. intros _.
    destruct (Z_lt_le_dec x 2) as [Hlt | Hge].
    + assert (F : Ok false = Ok true) by (apply T; left; exact Hlt).
      discriminate.
    + split; [exact Hge |]. intros Hp.
      assert (F : Ok false = Ok true) by (apply T; right; exact Hp).
      discriminate.
Qed.

Lemma isPrime_on_int_range_witness :
  (isPrime 17 = Ok true <-> 17 < 2 \/ Z.prime 17)
  /\ (isPrime 17 = Ok false <-> 2 <= 17 /\ ~ Z.prime 17).
Proof. apply (isPrime_on_int_range 17). unfold INT_MAX. simpl. lia. Defined.

Lemma isPrime_std_body_int_range x i :
  2 <= i -> x <= INT_MAX -> isPrime_std_body x i = isPrime_body x i.
Proof.
  intros Hi Hx. unfold isPrime_std_body, isPrime_body.
  destruct (Z.ltb_spec i x); [| reflexivity].
  destruct (Z.ltb_spec i INT_MAX); [| lia].
  rewrite wrap32_id by (unfold INT_MIN, INT_MAX in *; lia). reflexivity.
Qed.

Lemma isPrime_std_iter_int_range x n : forall i,
  2 <= i -> x <= INT_MAX ->
  iter (isPrime_std_body x) n i = iter (isPrime_body x) n i.
Proof.
  induction n as [| n IH]; intros i Hi Hx; [reflexivity |].
  rewrite !iter_S, (isPrime_std_body_int_range x i Hi Hx).
  unfold isPrime_body.
  destruct (Z.ltb_spec i x); [| reflexivity].
  destruct (rem64 x i) as [r | | | |]; cbn [bind]; try reflexivity.
  destruct (r =? 0); cbn [bind]; [reflexivity |].
  rewrite wrap32_id by (unfold INT_MIN, INT_MAX in *; lia).
  apply IH; [lia | exact Hx].
Qed.

(** On the range of [int] the two readings of the loop are the same
    function. *)
Lemma isPrime_std_int_range x : x <= INT_MAX -> isPrime_std x = isPrime x.
Proof.
  intros Hx. unfold isPrime_std, isPrime, while.
  rewrite !run_iter, (isPrime_std_iter_int_range x _ 2) by (exact Hx || lia).
  reflexivity.
Qed.

Lemma first_divisor x n :
  (exists m, 2 <= m < 2 + Z.of_nat n /\ Z.rem x m = 0
             /\ forall j, 2 <= j < m -> Z.rem x j <> 0)
  \/ (forall j, 2 <= j < 2 + Z.of_nat n -> Z.rem x j <> 0).
Proof.
  induction n as [| n IH].
  - right. intros j Hj. lia.
  - destruct IH as [[m [Hm [Hr Hl]]] | IH].
    + left. exists m. split; [lia | auto].
    + destruct (Z.eq_dec (Z.rem x (2 + Z.of_nat n)) 0) as [Hr | Hr].
      * left. exists (2 + Z.of_nat n). split; [lia | auto].
      * right. intros j Hj.
        destruct (Z.eq_dec j (2 + Z.of_nat n)) as [-> |];
          [exact Hr | apply IH; lia].
Qed.

Lemma isPrime_std_body_next x i :
  2 <= i < INT_MAX -> INT_MAX < x -> Z.rem x i <> 0 ->
  isPrime_std_body x i = Ok (inl (i + 1)).
Proof.
  intros Hi Hx Hr. unfold isPrime_std_body.
  destruct (Z.ltb_spec i x); [| lia].
  rewrite rem64_Ok by lia. cbn [bind].
  destruct (Z.eqb_spec (Z.rem x i) 0); [contradiction |].
  destruct (Z.ltb_spec i INT_MAX); [reflexivity | lia].
Qed.

Lemma isPrime_std_body_hit x i :
  2 <= i <= INT_MAX -> INT_MAX < x -> Z.rem x i = 0 ->
  isPrime_std_body x i = Ok (inr false).
Proof.
  intros Hi Hx Hr. unfold isPrime_std_body.
  destruct (Z.ltb_spec i x); [| lia].
  rewrite rem64_Ok by lia. cbn [bind]. rewrite Hr. reflexivity.
Qed.

Lemma isPrime_std_body_overflow x :
  INT_MAX < x -> Z.rem x INT_MAX <> 0 ->
  isPrime_std_body x INT_MAX = Undefined.
Proof.
  intros Hx Hr. unfold isPrime_std_body.
  destruct (Z.ltb_spec INT_MAX x); [| lia].
  rewrite rem64_Ok by (unfold INT_MAX; simpl; lia). cbn [bind].
  destruct (Z.eqb_spec (Z.rem x INT_MAX) 0); [contradiction |].
  rewrite Z.ltb_irrefl. reflexivity.
Qed.

(** The loop of [isPrime_std] up to the counter [m]: no divisor below [m],
    and [m] is where the loop leaves. *)
Lemma isPrime_std_trace x m :
  INT_MAX < x -> 2 <= m <= INT_MAX ->
  (forall j, 2 <= j < m -> Z.rem x j <> 0) ->
  leaves (isPrime_std_body x m) ->
  isPrime_std x = finish (isPrime_std_body x m).
Proof.
  intros Hx Hm Hl Hleaves. unfold isPrime_std.
  pose proof (while_trace (isPrime_std_body x) (fun k => 2 + Z.of_nat k)
                (Z.to_nat (m - 2)) fuel32) as T.
  cbv beta in T. change (2 + Z.of_nat 0) with 2 in T.
  replace (2 + Z.of_nat (Z.to_nat (m - 2))) with m in T by lia.
  apply T.
  - intros k Hk. rewrite isPrime_std_body_next; [| lia | exact Hx |].
    + do 2 f_equal. lia.
    + apply Hl. lia.
  - exact Hleaves.
  - unfold INT_MAX in Hm. change (2 ^ 31) with 2147483648 in Hm. fuel_lia.
Qed.

Lemma isPrime_std_divisor x d :
  INT_MAX < x -> 2 <= d <= INT_MAX -> (d | x) -> isPrime_std x = Ok false.
Proof.
  intros Hx Hd Hdiv.
  destruct (first_divisor x (Z.to_nat (d - 1))) as [[m [Hm [Hr Hl]]] | Hno].
  - rewrite (isPrime_std_trace x m Hx ltac:(lia) Hl);
      rewrite (isPrime_std_body_hit x m ltac:(lia) Hx Hr);
      [reflexivity | intros s; discriminate].
  - exfalso. apply (Hno d); [lia |]. apply Z.rem_divide; [lia | exact Hdiv].
Qed.

Lemma isPrime_std_no_divisor x :
  INT_MAX < x -> (forall d, 2 <= d <= INT_MAX -> ~ (d | x)) ->
  isPrime_std x = Undefined.
Proof.
  intros Hx Hno.
  assert (Hr : forall j, 2 <= j <= INT_MAX -> Z.rem x j <> 0).
  { intros j Hj E. apply (Hno j Hj). apply Z.rem_divide; [lia | exact E]. }
  assert (H2 : 2 <= INT_MAX <= INT_MAX) by (unfold INT_MAX; simpl; lia).
  assert (Hl : forall j, 2 <= j < INT_MAX -> Z.rem x j <> 0).
  { intros j Hj. apply Hr. lia. }
  rewrite (isPrime_std_trace x INT_MAX Hx H2 Hl);
    rewrite (isPrime_std_body_overflow x Hx (Hr _ H2));
    [reflexivity | intros s; discriminate].
Qed.

(** X2: above [INT_MAX] no defined execution of [isPrime] returns [true].
    Read by the letter of the language ([isPrime_std]), the call returns
    [false] exactly when the argument has a divisor between 2 and
    [INT_MAX], and otherwise, as for every prime above [INT_MAX], it
    reaches the overflow of [++i] on the counter, which has no defined
    result; whenever it returns, [isPrime] returns the same. *)
Theorem isPrime_beyond_int_range x :
  INT_MAX < x ->
  (isPrime_std x = Ok false <-> exists d, 2 <= d <= INT_MAX /\ (d | x))
  /\ (isPrime_std x = Undefined
      <-> forall d, 2 <= d <= INT_MAX -> ~ (d | x))
  /\ (forall b, isPrime_std x = Ok b -> isPrime x = Ok b).
Proof.
  intros Hx.
  assert (D : (exists d, 2 <= d <= INT_MAX /\ (d | x))
              \/ (forall d, 2 <= d <= INT_MAX -> ~ (d | x))).
  { destruct (first_divisor x (Z.to_nat (INT_MAX - 1)))
      as [[m [Hm [Hr _]]] | Hno].
    - left. exists m.
      assert (0 <= INT_MAX - 1) by (unfold INT_MAX; simpl; lia).
      split; [lia |]. apply Z.rem_divide; [lia | exact Hr].
    - right. intros d Hd Hdiv. apply (Hno d).
      + assert (0 <= INT_MAX - 1) by (unfold INT_MAX; simpl; lia). lia.
      + apply Z.rem_divide; [lia | exact Hdiv]. }
  split; [| split].
  - split.
    + intros E. destruct D as [D | D]; [exact D |].
      rewrite (isPrime_std_no_divisor x Hx D) in E. discriminate.
    + intros [d [Hd Hdiv]]. exact (isPrime_std_divisor x d Hx Hd Hdiv).
  - split.
    + intros E. destruct D as [[d [Hd Hdiv]] | D]; [| exact D].
      rewrite (isPrime_std_divisor x d Hx Hd Hdiv) in E. discriminate.
    + intros Hno. exact (isPrime_std_no_divisor x Hx Hno).
  - intros b E. destruct D as [[d [Hd Hdiv]] | D].
    + rewrite (isPrime_std_divisor x d Hx Hd Hdiv) in E.
      injection E as <-. apply isPrime_above_INT_MAX. exact Hx.
    + rewrite (isPrime_std_no_divisor x Hx D) in E. discriminate.
Qed.

Lemma isPrime_beyond_int_range_witness :
  (isPrime_std 2147483659 = Ok false
   <-> exists d, 2 <= d <= INT_MAX /\ (d | 2147483659))
  /\ (isPrime_std 2147483659 = Undefined
      <-> forall d, 2 <= d <= INT_MAX -> ~ (d | 2147483659))
  /\ (forall b, isPrime_std 2147483659 = Ok b -> isPrime 2147483659 = Ok b).
Proof.
  apply (isPrime_beyond_int_range 2147483659). unfold INT_MAX. simpl. lia.
Defined.

(** The prime 2147483659 is such an argument: the call reaches the
    overflow. *)
Lemma isPrime_std_2147483659 : isPrime_std 2147483659 = Undefined.
Proof.
  apply isPrime_std_no_divisor.
  - unfold INT_MAX. simpl. lia.
  - intros d Hd. destruct prime_2147483659 as [_ Hp]. apply Hp.
    unfold INT_MAX in Hd. change (2 ^ 31) with 2147483648 in Hd. lia.
Qed.

(** ** [dividerList] (lines 37-49) *)

Lemma sorted_naturals a n : StronglySorted Z.lt (map Z.of_nat (seq a n)).
Proof.
  revert a. induction n as [| n IH]; intros a; simpl.
  - constructor.
  - constructor; [apply IH |].
    apply Forall_forall. intros z Hz. apply in_map_iff in Hz.
    destruct Hz as [k [<- Hk]]. apply in_seq in Hk. lia.
Qed.

Lemma sorted_filter (f : Z -> bool) l :
  StronglySorted Z.lt l -> StronglySorted Z.lt (filter f l).
Proof.
  induction 1 as [| a l Hs IH Ha]; simpl.
  - constructor.
  - destruct (f a); [| exact IH].
    constructor; [exact IH |].
    apply Forall_forall. intros z Hz. apply filter_In in Hz.
    rewrite Forall_forall in Ha. apply Ha. tauto.
Qed.

Lemma divisors_sorted x : StronglySorted Z.lt (divisors x).
Proof. apply sorted_filter, sorted_naturals. Qed.

(** X3: for [0 <= x] within the limit of [reserve], [dividerList] returns
    the positive divisors of [x], each once, in ascending order. *)
Theorem dividerList_is_sorted_divisors x :
  0 <= x <= vector_max_size ->
  exists l, dividerList x = Ok l
            /\ (forall d, In d l <-> 1 <= d <= x /\ (d | x))
            /\ StronglySorted Z.lt l.
Proof.
  intros Hx. exists (divisors x). split; [apply dividerList_spec; exact Hx |].
  split; [| apply divisors_sorted].
  intros d. rewrite divisors_In. split; intros [Hd Hr]; (split; [exact Hd |]).
  - apply Z.rem_divide; [lia | exact Hr].
  - apply Z.rem_divide; [lia | exact Hr].
Qed.

Lemma dividerList_is_sorted_divisors_witness :
  exists l, dividerList 12 = Ok l
            /\ (forall d, In d l <-> 1 <= d <= 12 /\ (d | 12))
            /\ StronglySorted Z.lt l.
Proof.
  apply (dividerList_is_sorted_divisors 12). unfold vector_max_size. simpl. lia.
Defined.

Lemma filter_none {A : Type} (f : A -> bool) l :
  (forall y, In y l -> f y = false) -> filter f l = [].
Proof.
  induction l as [| a l IH]; intros H; simpl; [reflexivity |].
  rewrite (H a) by (left; reflexivity). apply IH.
  intros y Hy. apply H. right. exact Hy.
Qed.

Lemma divisors_prime x : Z.prime x -> divisors x = [1; x].
Proof.
  intros [H1 Hp]. rewrite (divisors_head x) by lia. f_equal.
  replace (Z.to_nat x - 1)%nat with (S (Z.to_nat x - 2)) by lia.
  rewrite seq_S, map_app, filter_app.
  rewrite filter_none.
  - cbn [map filter app].
    replace (Z.of_nat (2 + (Z.to_nat x - 2))) with x by lia.
    unfold divides_b. rewrite Z.rem_same by lia. reflexivity.
  - intros y Hy. apply in_map_iff in Hy. destruct Hy as [k [<- Hk]].
    apply in_seq in Hk. unfold divides_b. apply Z.eqb_neq. intros Hr.
    apply (Hp (Z.of_nat k)); [lia |].
    apply Z.rem_divide; [lia | exact Hr].
Qed.

(** X4: on the range of the [int] counter, [isPrime] accepts [x >= 2]
    exactly when [dividerList] finds no divisor besides 1 and [x]. *)
Theorem isPrime_iff_two_divisors x :
  2 <= x <= INT_MAX ->
  (isPrime x = Ok true <-> dividerList x = Ok [1; x]).
Proof.
  intros Hx.
  assert (R : 0 <= x <= vector_max_size).
  { unfold INT_MAX, vector_max_size in *.
    change (2 ^ 31) with 2147483648 in *.
    change (2 ^ 60) with 1152921504606846976. lia. }
  rewrite (dividerList_spec x R), isPrime_true_iff. split.
  - intros [_ [Hlt | Hp]]; [lia |]. rewrite (divisors_prime x Hp). reflexivity.
  - intros E. injection E as E. split; [lia | right].
    split; [lia |]. intros d Hd Hdiv.
    assert (Hin : In d (divisors x)).
    { apply divisors_In. split; [lia |]. apply Z.rem_divide; [lia | exact Hdiv]. }
    rewrite E in Hin. simpl in Hin. lia.
Qed.

Lemma isPrime_iff_two_divisors_witness :
  isPrime 7 = Ok true <-> dividerList 7 = Ok [1; 7].
Proof. apply (isPrime_iff_two_divisors 7). unfold INT_MAX. simpl. lia. Defined.

(** ** [areCoprimes] (lines 54-69) *)

(** X5: when [areCoprimes] returns [false] for positive arguments, the two
    numbers do share a divisor greater than 1. *)
Theorem areCoprimes_false_shares_divisor a b :
  1 <= a -> 1 <= b -> areCoprimes a b = Ok false -> 1 < Z.gcd a b.
Proof.
  intros Ha Hb H.
  pose proof (areCoprimes_false_sound a b Ha Hb H) as Hne.
  pose proof (Z.gcd_nonneg a b) as Hnn.
  destruct (Z.eq_dec (Z.gcd a b) 0) as [H0 | H0]; [| lia].
  apply Z.gcd_eq_0_l in H0. lia.
Qed.

Lemma areCoprimes_false_shares_divisor_witness : 1 < Z.gcd 4 6.
Proof.
  apply (areCoprimes_false_shares_divisor 4 6); [lia | lia |].
  vm_compute. reflexivity.
Defined.

(** From 2 on, the divisor list starts with 1 and the least divisor above
    1. *)
Lemma divisors_second b :
  2 <= b ->
  exists d2 rest,
    divisors b = 1 :: d2 :: rest /\ 2 <= d2 /\ (d2 | b)
    /\ forall d, 2 <= d -> (d | b) -> d2 <= d.
Proof.
  intros Hb.
  pose proof (divisors_sorted b) as Hs.
  assert (Hin : In b (divisors b)).
  { apply divisors_In. split; [lia |]. apply Z.rem_same. lia. }
  assert (Htl : forall d, In d (skipn 1 (divisors b)) -> 2 <= d <= b /\ (d | b))
    by (intros d; apply divisors_tail_In; lia).
  assert (Hall : forall d, 2 <= d -> (d | b) -> In d (divisors b)).
  { intros d Hd Hdiv. apply divisors_In. split.
    - split; [lia |]. apply Z.divide_pos_le; [lia | exact Hdiv].
    - apply Z.rem_divide; [lia | exact Hdiv]. }
  rewrite (divisors_head b) in * by lia.
  destruct (filter _ _) as [| d2 rest].
  - destruct Hin as [Hin | []]. lia.
  - exists d2, rest. split; [reflexivity |].
    destruct (Htl d2 (or_introl eq_refl)) as [Hd2 Hdiv2].
    split; [lia |]. split; [exact Hdiv2 |].
    intros d Hd Hdiv. destruct (Hall d Hd Hdiv) as [E | [E | Hr]];
      [lia | lia |].
    apply StronglySorted_inv in Hs. destruct Hs as [Hs _].
    apply StronglySorted_inv in Hs. destruct Hs as [_ Hf].
    rewrite Forall_forall in Hf. specialize (Hf d Hr). lia.
Qed.

(** X6: for a prime [a] and [b >= 2], [areCoprimes] compares [a] with one
    number only, the least divisor of [b] above 1: it returns [false] exactly
    when [a] is that divisor, and [true] otherwise, also when [a] divides
    [b]. *)
Theorem areCoprimes_prime_first a b :
  Z.prime a -> 2 <= b -> a <= vector_max_size -> b <= vector_max_size ->
  (areCoprimes a b = Ok false \/ areCoprimes a b = Ok true)
  /\ (areCoprimes a b = Ok false <->
      (a | b) /\ forall d, 2 <= d < a -> ~ (d | b)).
Proof.
  intros Hp Hb Ra Rb. pose proof (Z.prime_ge_2 a Hp) as Ha.
  rewrite areCoprimes_divisors by lia.
  rewrite (divisors_prime a Hp).
  destruct (divisors_second b Hb) as [d2 [rest [E [Hd2 [Hdiv Hleast]]]]].
  rewrite E. unfold positional. cbn [length Nat.ltb Nat.leb skipn clash].
  destruct (Z.eqb_spec a d2) as [-> | Hne]; cbn [bind negb].
  - split; [left; reflexivity |]. split; [intros _ | reflexivity].
    split; [exact Hdiv |]. intros d Hd Hdd.
    specialize (Hleast d ltac:(lia) Hdd). lia.
  - split; [right; reflexivity |]. split; [discriminate |].
    intros [Hab Hno]. exfalso.
    specialize (Hleast a Ha Hab).
    apply (Hno d2); [lia | exact Hdiv].
Qed.

Lemma areCoprimes_prime_first_witness :
  (areCoprimes 3 6 = Ok false \/ areCoprimes 3 6 = Ok true)
  /\ (areCoprimes 3 6 = Ok false <->
      (3 | 6) /\ forall d, 2 <= d < 3 -> ~ (d | 6)).
Proof.
  apply (areCoprimes_prime_first 3 6).
  - exact Z.prime_3.
  - lia.
  - unfold vector_max_size. simpl. lia.
  - unfold vector_max_size. simpl. lia.
Defined.

(** X7: the list of divisors of 0 is empty, so [areCoprimes] returns [true]
    whenever one argument is 0, whatever the other one is. *)
Theorem areCoprimes_zero b :
  0 <= b <= vector_max_size ->
  areCoprimes 0 b = Ok true /\ areCoprimes b 0 = Ok true.
Proof.
  intros Hb.
  assert (R0 : 0 <= 0 <= vector_max_size) by lia.
  destruct (Z.eq_dec b 1) as [-> | Hb1];
    [split; apply areCoprimes_unit; auto |].
  split; rewrite areCoprimes_divisors by (assumption || lia).
  - change (divisors 0) with (@nil Z). unfold positional.
    destruct (1 <? length (divisors b))%nat; reflexivity.
  - change (divisors 0) with (@nil Z). reflexivity.
Qed.

Lemma areCoprimes_zero_witness :
  areCoprimes 0 6 = Ok true /\ areCoprimes 6 0 = Ok true.
Proof. apply (areCoprimes_zero 6). unfold vector_max_size. simpl. lia. Defined.

Lemma dividerList_Ok_or_LengthError x :
  (exists l, dividerList x = Ok l) \/ dividerList x = LengthError.
Proof.
  destruct (Z_lt_le_dec x 0) as [Hneg | Hnn].
  - right. unfold dividerList. destruct (Z.ltb_spec x 0); [reflexivity | lia].
  - destruct (Z_le_gt_dec x vector_max_size) as [Hle | Hgt].
    + left. exists (divisors x). apply dividerList_spec. lia.
    + right. unfold dividerList.
      destruct (Z.ltb_spec vector_max_size x); [| lia].
      rewrite orb_true_r. reflexivity.
Qed.

(** X8: a negative argument makes [reserve] throw: unless one of the
    arguments is 1, [areCoprimes] ends in [std::length_error]. *)
Theorem areCoprimes_negative a b :
  a <> 1 -> b <> 1 -> a < 0 \/ b < 0 -> areCoprimes a b = LengthError.
Proof.
  intros Ha Hb Hneg. unfold areCoprimes.
  destruct (Z.eqb_spec a 1); [contradiction |].
  destruct (Z.eqb_spec b 1); [contradiction |]. cbn [orb].
  assert (N : forall x, x < 0 -> dividerList x = LengthError).
  { intros x Hx. unfold dividerList.
    destruct (Z.ltb_spec x 0); [reflexivity | lia]. }
  destruct (dividerList_Ok_or_LengthError a) as [[al Ea] | Ea]; rewrite Ea;
    [| reflexivity].
  cbn [bind]. rewrite N; [reflexivity |].
  destruct Hneg as [Hn | Hn]; [| exact Hn].
  rewrite (N a Hn) in Ea. discriminate.
Qed.

Lemma areCoprimes_negative_witness : areCoprimes (-3) 5 = LengthError.
Proof. apply (areCoprimes_negative (-3) 5); lia. Defined.

(** ** [phi] (lines 72-76) *)

(** X9: for primes [p], [q] within the range of [isPrime] and their product
    [n], [phi] returns [(p - 1) * (q - 1)], without wrap-around. *)
Theorem phi_of_primes p q :
  Z.prime p -> Z.prime q -> p <= INT_MAX -> q <= INT_MAX ->
  phi (p * q) p q = Ok ((p - 1) * (q - 1)).
Proof.
  intros Hp Hq Sp Sq.
  destruct (prime_products p q Hp Hq Sp Sq) as [Wn Wphi].
  rewrite <- Wphi. apply phi_accept; [exact Wn | |];
    apply prime_isPrime; assumption.
Qed.

Lemma phi_of_primes_witness : phi (3 * 5) 3 5 = Ok ((3 - 1) * (5 - 1)).
Proof.
  apply (phi_of_primes 3 5).
  - exact Z.prime_3.
  - exact prime_5.
  - unfold INT_MAX. simpl. lia.
  - unfold INT_MAX. simpl. lia.
Defined.

(** X10: [phi] either returns or fails an assertion, it has no other
    outcome; it returns exactly when [n] is the 64-bit product of [p] and
    [q] and [isPrime] accepts both. *)
Theorem phi_returns_or_aborts n p q :
  (phi n p q = AssertFail \/ phi n p q = Ok (phi_value p q))
  /\ (phi n p q = Ok (phi_value p q) <->
      wrap64 (p * q) = n /\ isPrime p = Ok true /\ isPrime q = Ok true).
Proof.
  split.
  - destruct (Z.eq_dec (wrap64 (p * q)) n) as [Hn | Hn];
      [| left; apply phi_mismatch; exact Hn].
    destruct (isPrime_total p) as [[|] Ep];
      [| left; apply phi_reject; left; exact Ep].
    destruct (isPrime_total q) as [[|] Eq];
      [| left; apply phi_reject; right; split; assumption].
    right. apply phi_accept; assumption.
  - split.
    + intros H. destruct (phi_Ok_inv _ _ _ _ H) as [Hn [Hp [Hq _]]]. auto.
    + intros [Hn [Hp Hq]]. apply phi_accept; assumption.
Qed.

(** ** [power] (lines 80-90) *)

Lemma wrap64_mod z :
  wrap64 z mod 18446744073709551616 = z mod 18446744073709551616.
Proof.
  unfold wrap64, wrap. change (2 ^ 64) with 18446744073709551616.
  rewrite Zminus_mod_idemp_l. f_equal. lia.
Qed.

Lemma wrap64_congr a b :
  a mod 18446744073709551616 = b mod 18446744073709551616 ->
  wrap64 a = wrap64 b.
Proof.
  intros H. unfold wrap64, wrap. change (2 ^ 64) with 18446744073709551616.
  rewrite (Z.add_mod a), (Z.add_mod b), H by lia. reflexivity.
Qed.

Lemma wrap64_mul_l a x : wrap64 (wrap64 a * x) = wrap64 (a * x).
Proof.
  apply wrap64_congr.
  rewrite (Z.mul_mod (wrap64 a)), wrap64_mod, <- Z.mul_mod by lia.
  reflexivity.
Qed.

Lemma power_negative x exponent :
  exponent < 0 -> power x exponent = Ok x.
Proof.
  intros Hneg. unfold power.
  destruct (Z.eqb_spec exponent 0) as [| Hne]; [lia |].
  rewrite (while_iter _ fuel64 1); rewrite ?iter_S; unfold power_body.
  - destruct (Z.ltb_spec 1 exponent); [lia | reflexivity].
  - destruct (Z.ltb_spec 1 exponent); [lia | intros s; discriminate].
  - fuel_lia.
Qed.

Lemma power_positive x exponent :
  in_llong x -> 1 <= exponent <= LLONG_MAX ->
  power x exponent = Ok (wrap64 (x ^ exponent)).
Proof.
  intros Rx Re. unfold power.
  destruct (Z.eqb_spec exponent 0) as [| Hne]; [lia |].
  unfold LLONG_MAX in Re.
  change (2 ^ 63) with 9223372036854775808 in Re.
  assert (E0 : (1, x) = (fun k => (1 + Z.of_nat k, wrap64 (x ^ (1 + Z.of_nat k)))) O).
  { cbv beta. simpl Z.of_nat. rewrite Z.add_0_r, Z.pow_1_r, wrap64_id by exact Rx.
    reflexivity. }
  rewrite E0.
  rewrite (while_trace _ (fun k => (1 + Z.of_nat k, wrap64 (x ^ (1 + Z.of_nat k))))
             (Z.to_nat (exponent - 1))); cbv beta; unfold power_body.
  - destruct (Z.ltb_spec (1 + Z.of_nat (Z.to_nat (exponent - 1))) exponent);
      [lia |].
    cbn [finish bind]. do 3 f_equal. lia.
  - intros k Hk.
    destruct (Z.ltb_spec (1 + Z.of_nat k) exponent); [| lia].
    rewrite wrap64_mul_l.
    rewrite (wrap64_id (1 + Z.of_nat k + 1))
      by (unfold in_llong, LLONG_MIN, LLONG_MAX;
          change (2 ^ 63) with 9223372036854775808; lia).
    do 3 f_equal; [lia |]. f_equal.
    replace (1 + Z.of_nat (S k)) with (Z.succ (1 + Z.of_nat k)) by lia.
    rewrite Z.pow_succ_r by lia. ring.
  - destruct (Z.ltb_spec (1 + Z.of_nat (Z.to_nat (exponent - 1))) exponent);
      [lia | intros s; discriminate].
  - fuel_lia.
Qed.

(** X11: [power] computes the power modulo [2^64]: for a base and an
    exponent of type [long long int] it returns 1 for the exponent 0, the
    base itself for a negative exponent, and otherwise [x ^ exponent]
    wrapped to 64 bits. *)
Theorem power_wraps x exponent :
  in_llong x -> in_llong exponent ->
  power x exponent =
  Ok (if exponent =? 0 then 1
      else if exponent <? 0 then x
      else wrap64 (x ^ exponent)).
Proof.
  intros Rx Re.
  destruct (Z.eqb_spec exponent 0) as [-> | Hne]; [reflexivity |].
  destruct (Z.ltb_spec exponent 0) as [Hneg | Hpos].
  - apply power_negative. exact Hneg.
  - apply power_positive; [exact Rx |].
    unfold in_llong in Re. lia.
Qed.

Lemma power_wraps_witness :
  power 8 27 =
  Ok (if 27 =? 0 then 1 else if 27 <? 0 then 8 else wrap64 (8 ^ 27)).
Proof.
  apply (power_wraps 8 27);
    unfold in_llong, LLONG_MIN, LLONG_MAX; simpl; lia.
Defined.

(** ** [publicKey] (lines 141-157) *)

Lemma areCoprimes_2_odd n_eulero :
  3 <= n_eulero <= vector_max_size -> Z.rem n_eulero 2 <> 0 ->
  areCoprimes 2 n_eulero = Ok true.
Proof.
  intros Hn Hodd.
  assert (R2 : 0 <= 2 <= vector_max_size).
  { unfold vector_max_size. change (2 ^ 60) with 1152921504606846976. lia. }
  rewrite areCoprimes_divisors by (assumption || lia).
  rewrite (divisors_prime 2 Z.prime_2).
  destruct (divisors_second n_eulero ltac:(lia)) as [d2 [rest [E [Hd2 [Hdiv _]]]]].
  rewrite E. unfold positional. cbn [length Nat.ltb Nat.leb skipn clash].
  destruct (Z.eqb_spec 2 d2) as [<- | _]; [| reflexivity].
  exfalso. apply Hodd. apply Z.rem_divide; [lia | exact Hdiv].
Qed.

Lemma areCoprimes_2_too_big n_eulero :
  vector_max_size < n_eulero -> areCoprimes 2 n_eulero = LengthError.
Proof.
  intros Hn. unfold areCoprimes.
  assert (R2 : 0 <= 2 <= vector_max_size).
  { unfold vector_max_size. change (2 ^ 60) with 1152921504606846976. lia. }
  assert (Hpos : 0 < vector_max_size) by lia.
  destruct (Z.eqb_spec n_eulero 1); [lia |].
  change (2 =? 1) with false. cbn [orb].
  rewrite (dividerList_spec 2 R2). cbn [bind]. unfold dividerList.
  destruct (Z.ltb_spec vector_max_size n_eulero); [| lia].
  rewrite orb_true_r. reflexivity.
Qed.

Lemma publicKey_unfold_accepted p q :
  isPrime p = Ok true -> isPrime q = Ok true ->
  publicKey p q =
  (e <- while (publicKey_body (phi_value p q)) fuel64 2 ;;
   Ok (Key.mkPublic (wrap64 (p * q)) e)).
Proof.
  intros Hp Hq. unfold publicKey.
  rewrite Hp. cbn [bind]. rewrite Hq. cbn [bind assert].
  rewrite (phi_accept _ p q eq_refl Hp Hq). reflexivity.
Qed.

(** X12: what [publicKey] returns depends on [phi] only through its size
    and parity.  For arguments that [isPrime] accepts: the exponent is 0 when
    [phi <= 2], 2 when [phi] is odd, 3 when [phi] is even; and when [phi]
    exceeds the limit of [reserve] the call ends in [std::length_error]. *)
Theorem publicKey_exponent p q :
  isPrime p = Ok true -> isPrime q = Ok true ->
  publicKey p q =
  if vector_max_size <? phi_value p q then LengthError
  else Ok (Key.mkPublic (wrap64 (p * q))
             (if phi_value p q <=? 2 then 0
              else if Z.even (phi_value p q) then 3 else 2)).
Proof.
  intros Hp Hq.
  assert (Hpos : 2 < vector_max_size).
  { unfold vector_max_size. change (2 ^ 60) with 1152921504606846976. lia. }
  destruct (Z.ltb_spec vector_max_size (phi_value p q)) as [Hbig | Hfit].
  - rewrite (publicKey_unfold_accepted p q Hp Hq).
    rewrite (while_iter _ fuel64 1); rewrite ?iter_S; unfold publicKey_body.
    + destruct (Z.ltb_spec 2 (phi_value p q)); [| lia].
      rewrite areCoprimes_2_too_big by exact Hbig. reflexivity.
    + destruct (Z.ltb_spec 2 (phi_value p q)); [| lia].
      rewrite areCoprimes_2_too_big by exact Hbig. intros s; discriminate.
    + fuel_lia.
  - destruct (Z.leb_spec (phi_value p q) 2) as [Hsmall | Hlarge].
    + apply publicKey_accept; try assumption.
      apply publicKey_scan_none; [apply wrap64_range |].
      intros j Hj. lia.
    + rewrite Zeven_mod.
      pose proof (Z.rem_mod_nonneg (phi_value p q) 2 ltac:(lia) ltac:(lia)) as Hrm.
      destruct (Z.eqb_spec (phi_value p q mod 2) 0) as [Heven | Hodd].
      * apply publicKey_even_phi; try assumption; [| lia].
        pose proof (Z.div_mod (phi_value p q) 2 ltac:(lia)). lia.
      * apply publicKey_first_accepted; try assumption.
        -- lia.
        -- apply areCoprimes_2_odd; lia.
        -- intros j Hj. lia.
Qed.

Lemma publicKey_exponent_witness :
  publicKey 3 11 =
  if vector_max_size <? phi_value 3 11 then LengthError
  else Ok (Key.mkPublic (wrap64 (3 * 11))
             (if phi_value 3 11 <=? 2 then 0
              else if Z.even (phi_value 3 11) then 3 else 2)).
Proof.
  apply (publicKey_exponent 3 11); vm_compute; reflexivity.
Defined.

Lemma odd_prime_pred_even p : Z.prime p -> p <> 2 -> (2 | p - 1).
Proof.
  intros [H1 Hp] Hne.
  destruct (Z.eq_dec (p mod 2) 0) as [Hz | Hnz].
  - exfalso. apply (Hp 2); [lia |]. apply Z.mod_divide; [lia | exact Hz].
  - pose proof (Z.mod_pos_bound p 2 ltac:(lia)) as Hb.
    exists (p / 2). pose proof (Z.div_mod p 2 ltac:(lia)). lia.
Qed.

Lemma odd_primes_phi p q :
  Z.prime p -> Z.prime q -> p <> 2 -> q <> 2 ->
  p <= INT_MAX -> q <= INT_MAX ->
  wrap64 (p * q) = p * q /\ phi_value p q = (p - 1) * (q - 1)
  /\ 4 <= phi_value p q /\ Z.rem (phi_value p q) 2 = 0.
Proof.
  intros Hp Hq Hp2 Hq2 Sp Sq.
  destruct (prime_products p q Hp Hq Sp Sq) as [Wn Wphi].
  pose proof (Z.prime_ge_2 p Hp). pose proof (Z.prime_ge_2 q Hq).
  rewrite Wphi. repeat apply conj; try reflexivity; [exact Wn | nia |].
  apply Z.rem_divide; [lia |].
  apply Z.divide_mul_l. apply odd_prime_pred_even; assumption.
Qed.

(** X13: for odd primes within the range of [isPrime], whose [phi] is below
    the limit of [reserve], the public key is [{p * q, 3}]: the exponent is
    3 for every such pair, also when 3 divides [phi]. *)
Theorem publicKey_odd_primes p q :
  Z.prime p -> Z.prime q -> p <> 2 -> q <> 2 ->
  p <= INT_MAX -> q <= INT_MAX ->
  (p - 1) * (q - 1) <= vector_max_size ->
  publicKey p q = Ok (Key.mkPublic (p * q) 3).
Proof.
  intros Hp Hq Hp2 Hq2 Sp Sq Hfit.
  destruct (odd_primes_phi p q Hp Hq Hp2 Hq2 Sp Sq) as [Wn [Wphi [H4 Hev]]].
  rewrite <- Wn. apply publicKey_even_phi.
  - apply prime_isPrime; assumption.
  - apply prime_isPrime; assumption.
  - rewrite Wphi in *. split; [exact H4 | exact Hfit].
  - exact Hev.
Qed.

Lemma publicKey_odd_primes_witness :
  publicKey 5 7 = Ok (Key.mkPublic (5 * 7) 3).
Proof.
  apply (publicKey_odd_primes 5 7).
  - exact prime_5.
  - apply isPrime_prime; [lia | vm_compute; reflexivity].
  - lia.
  - lia.
  - unfold INT_MAX. simpl. lia.
  - unfold INT_MAX. simpl. lia.
  - unfold vector_max_size. simpl. lia.
Defined.

(** X14: the public key does not depend on the order of the two
    arguments. *)
Theorem publicKey_symmetric p q : publicKey p q = publicKey q p.
Proof.
  destruct (isPrime_total p) as [[|] Ep], (isPrime_total q) as [[|] Eq].
  - rewrite (publicKey_unfold_accepted p q Ep Eq).
    rewrite (publicKey_unfold_accepted q p Eq Ep).
    unfold phi_value. rewrite (Z.mul_comm p q).
    rewrite (Z.mul_comm (wrap64 (p - 1)) (wrap64 (q - 1))). reflexivity.
  - rewrite (publicKey_reject p q) by (right; split; assumption).
    rewrite (publicKey_reject q p) by (left; assumption). reflexivity.
  - rewrite (publicKey_reject p q) by (left; assumption).
    rewrite (publicKey_reject q p) by (right; split; assumption). reflexivity.
  - rewrite (publicKey_reject p q) by (left; assumption).
    rewrite (publicKey_reject q p) by (left; assumption). reflexivity.
Qed.

(** ** [privateKey] (lines 159-182) *)

(** X15: [privateKey] checks that the public key belongs to the two
    numbers: when [n] is not their 64-bit product the call fails an
    assertion. *)
Theorem privateKey_checks_modulus p q pk :
  Key.n pk <> wrap64 (p * q) -> privateKey p q pk = AssertFail.
Proof.
  intros Hn. unfold privateKey.
  destruct (isPrime_total p) as [[|] Ep]; rewrite Ep; cbn [bind];
    [| reflexivity].
  destruct (isPrime_total q) as [[|] Eq]; rewrite Eq; cbn [bind assert];
    [| reflexivity].
  rewrite phi_mismatch by congruence. reflexivity.
Qed.

Lemma privateKey_checks_modulus_witness :
  privateKey 3 11 (Key.mkPublic 35 3) = AssertFail.
Proof.
  apply (privateKey_checks_modulus 3 11 (Key.mkPublic 35 3)).
  vm_compute. discriminate.
Defined.

(** *** The search for [d] with the exponent 3 *)

Lemma search_leaves_from_spec count : forall n,
  search_leaves_from count n = true ->
  forall j, n <= j < n + Z.of_nat count ->
  j mod 3 <> 0 -> search_leaves j = true.
Proof.
  induction count as [| c IH]; intros n H j Hj Hj3.
  - lia.
  - cbn [search_leaves_from] in H. apply andb_prop in H. destruct H as [H1 H2].
    destruct (Z.eq_dec j n) as [-> | Hne].
    + apply orb_prop in H1. destruct H1 as [H1 | H1]; [| exact H1].
      apply Z.eqb_eq in H1. contradiction.
    + apply (IH (n + 1)); [exact H2 | lia | exact Hj3].
Qed.

Lemma search_leaves_upto_10000 : search_leaves_from (Z.to_nat 9999) 2 = true.
Proof. vm_compute. reflexivity. Qed.

Lemma inverse_of_3_spec n_eulero d :
  inverse_of_3 n_eulero d = true ->
  1 <= d < n_eulero /\ (3 * d) mod n_eulero = 1.
Proof.
  unfold inverse_of_3. intros H.
  apply andb_prop in H. destruct H as [H H3].
  apply andb_prop in H. destruct H as [H1 H2].
  apply Z.leb_le in H1. apply Z.ltb_lt in H2. apply Z.eqb_eq in H3. auto.
Qed.

Lemma search_leaves_while n_eulero :
  search_leaves n_eulero = true ->
  exists d, while (privateKey_body 3 n_eulero) fuel64 1 = Ok d
            /\ 1 <= d < n_eulero /\ (3 * d) mod n_eulero = 1.
Proof.
  unfold search_leaves. intros H.
  destruct (privateKey_body 3 n_eulero 1) as [[k | d] | | | |] eqn:E1;
    try discriminate.
  - apply andb_prop in H. destruct H as [Hk H]. apply Z.eqb_eq in Hk. subst k.
    destruct (privateKey_body 3 n_eulero 2) as [[k | d] | | | |] eqn:E2;
      try discriminate.
    exists d. split; [| apply inverse_of_3_spec; exact H].
    rewrite (while_iter _ fuel64 2); rewrite ?iter_S, ?E1; cbn [resume bind];
      rewrite ?iter_S, ?E2.
    + reflexivity.
    + intros s; discriminate.
    + fuel_lia.
  - exists d. split; [| apply inverse_of_3_spec; exact H].
    rewrite (while_iter _ fuel64 1); rewrite ?iter_S, ?E1.
    + reflexivity.
    + intros s; discriminate.
    + fuel_lia.
Qed.

Lemma privateKey_search_3 p q :
  Z.prime p -> Z.prime q -> p <= INT_MAX -> q <= INT_MAX ->
  search_leaves ((p - 1) * (q - 1)) = true ->
  exists d,
    privateKey p q (Key.mkPublic (p * q) 3) = Ok (Key.mkPrivate p q d)
    /\ 1 <= d < (p - 1) * (q - 1)
    /\ (3 * d) mod ((p - 1) * (q - 1)) = 1.
Proof.
  intros Hp Hq Sp Sq L.
  destruct (search_leaves_while _ L) as [d [Ed [Hd Hinv]]].
  exists d. split; [| split; assumption].
  unfold privateKey. cbn [Key.n Key.e].
  rewrite (prime_isPrime p Hp Sp). cbn [bind].
  rewrite (prime_isPrime q Hq Sq). cbn [bind assert].
  rewrite (phi_primes p q Hp Hq Sp Sq). cbn [bind].
  rewrite Ed. reflexivity.
Qed.

Lemma small_primes_fit p q :
  Z.prime p -> Z.prime q -> (p - 1) * (q - 1) <= 10000 ->
  p <= INT_MAX /\ q <= INT_MAX /\ p * q <= 30003.
Proof.
  intros Hp Hq Hsmall.
  pose proof (Z.prime_ge_2 p Hp). pose proof (Z.prime_ge_2 q Hq).
  unfold INT_MAX. change (2 ^ 31) with 2147483648.
  repeat apply conj; nia.
Qed.

(** X16: key generation on small odd primes.  For odd primes [p], [q] with
    [phi = (p - 1) * (q - 1) <= 10000] not divisible by 3, [publicKey]
    returns [{p * q, 3}] and the floating-point search of [privateKey]
    returns [{p, q, d}] with [d] the inverse of 3 modulo [phi],
    [1 <= d < phi]. *)
Theorem key_generation_small_primes p q :
  Z.prime p -> Z.prime q -> p <> 2 -> q <> 2 ->
  (p - 1) * (q - 1) <= 10000 ->
  ((p - 1) * (q - 1)) mod 3 <> 0 ->
  exists d,
    publicKey p q = Ok (Key.mkPublic (p * q) 3)
    /\ privateKey p q (Key.mkPublic (p * q) 3) = Ok (Key.mkPrivate p q d)
    /\ 1 <= d < (p - 1) * (q - 1)
    /\ (3 * d) mod ((p - 1) * (q - 1)) = 1.
Proof.
  intros Hp Hq Hp2 Hq2 Hsmall H3.
  pose proof (Z.prime_ge_2 p Hp). pose proof (Z.prime_ge_2 q Hq).
  assert (Sp : p <= INT_MAX).
  { unfold INT_MAX. change (2 ^ 31) with 2147483648. nia. }
  assert (Sq : q <= INT_MAX).
  { unfold INT_MAX. change (2 ^ 31) with 2147483648. nia. }
  destruct (prime_products p q Hp Hq Sp Sq) as [Wn Wphi].
  assert (L : search_leaves ((p - 1) * (q - 1)) = true).
  { apply (search_leaves_from_spec _ 2 search_leaves_upto_10000);
      [nia | exact H3]. }
  destruct (privateKey_search_3 p q Hp Hq Sp Sq L) as [d [Ed [Hd Hinv]]].
  destruct (odd_primes_phi p q Hp Hq Hp2 Hq2 Sp Sq) as [_ [Wphi' [H4 Hev]]].
  exists d. split; [| split; [exact Ed | split; assumption]].
  rewrite <- Wn. apply publicKey_even_phi; try assumption.
  - apply prime_isPrime; assumption.
  - apply prime_isPrime; assumption.
  - split; [exact H4 |]. rewrite Wphi. unfold vector_max_size.
    change (2 ^ 60) with 1152921504606846976. lia.
Qed.

Lemma key_generation_small_primes_witness :
  exists d,
    publicKey 3 11 = Ok (Key.mkPublic (3 * 11) 3)
    /\ privateKey 3 11 (Key.mkPublic (3 * 11) 3) = Ok (Key.mkPrivate 3 11 d)
    /\ 1 <= d < (3 - 1) * (11 - 1)
    /\ (3 * d) mod ((3 - 1) * (11 - 1)) = 1.
Proof.
  apply (key_generation_small_primes 3 11).
  - exact Z.prime_3.
  - exact prime_11.
  - lia.
  - lia.
  - simpl. lia.
  - vm_compute. discriminate.
Defined.

(** ** [encode] and [decode] (lines 186-197) *)

Lemma encode_value n e x :
  0 < n -> in_llong x -> 1 <= e <= LLONG_MAX ->
  encode (Key.mkPublic n e) x = Ok (Z.rem (wrap64 (x ^ e)) n).
Proof.
  intros Hn Rx He. unfold encode. cbn [Key.n Key.e].
  rewrite (power_positive x e Rx He). cbn [bind].
  apply rem64_Ok; lia.
Qed.

Lemma decode_value n e p q d x :
  0 < n -> in_llong x -> 1 <= d <= LLONG_MAX ->
  decode (Key.mkPublic n e) (Key.mkPrivate p q d) x
  = Ok (Z.rem (wrap64 (x ^ d)) n).
Proof.
  intros Hn Rx Hd. unfold decode. cbn [Key.n Key.d].
  rewrite (power_positive x d Rx Hd). cbn [bind].
  apply rem64_Ok; lia.
Qed.

(** X17: with a positive modulus and a positive exponent, [encode] returns
    the truncating remainder of the power wrapped to 64 bits, and [decode]
    does the same with the private exponent; the result lies strictly
    between [-n] and [n]. *)
Theorem encode_decode_value n e p q d x :
  0 < n -> in_llong x -> 1 <= e <= LLONG_MAX -> 1 <= d <= LLONG_MAX ->
  encode (Key.mkPublic n e) x = Ok (Z.rem (wrap64 (x ^ e)) n)
  /\ decode (Key.mkPublic n e) (Key.mkPrivate p q d) x
     = Ok (Z.rem (wrap64 (x ^ d)) n)
  /\ - n < Z.rem (wrap64 (x ^ e)) n < n
  /\ - n < Z.rem (wrap64 (x ^ d)) n < n.
Proof.
  intros Hn Rx He Hd.
  assert (B : forall z, - n < Z.rem z n < n).
  { intros z. pose proof (Z.rem_bound_abs z n ltac:(lia)). lia. }
  rewrite (encode_value n e x Hn Rx He), (decode_value n e p q d x Hn Rx Hd).
  auto.
Qed.

Lemma encode_decode_value_witness :
  encode (Key.mkPublic 55 3) 2 = Ok (Z.rem (wrap64 (2 ^ 3)) 55)
  /\ decode (Key.mkPublic 55 3) (Key.mkPrivate 5 11 27) 2
     = Ok (Z.rem (wrap64 (2 ^ 27)) 55)
  /\ - 55 < Z.rem (wrap64 (2 ^ 3)) 55 < 55
  /\ - 55 < Z.rem (wrap64 (2 ^ 27)) 55 < 55.
Proof.
  apply (encode_decode_value 55 3 5 11 27 2);
    unfold in_llong, LLONG_MIN, LLONG_MAX; simpl; lia.
Defined.

(** X18: the message 1 is its own encoding and its own decoding under
    every key with a modulus above 1, whatever the exponents are. *)
Theorem roundtrip_of_one pk sk :
  1 < Key.n pk -> in_llong (Key.e pk) -> in_llong (Key.d sk) ->
  encode pk 1 = Ok 1 /\ decode pk sk 1 = Ok 1.
Proof.
  intros Hn Re Rd.
  assert (R1 : in_llong 1).
  { unfold in_llong, LLONG_MIN, LLONG_MAX.
    change (2 ^ 63) with 9223372036854775808. lia. }
  assert (P : forall k, in_llong k -> power 1 k = Ok 1).
  { intros k Rk.
    destruct (Z.eq_dec k 0) as [-> | Hne]; [reflexivity |].
    destruct (Z.lt_ge_cases k 0) as [Hneg | Hpos].
    - apply power_negative. exact Hneg.
    - rewrite (power_positive 1 k R1) by (unfold in_llong in Rk; lia).
      rewrite Z.pow_1_l by lia. rewrite wrap64_id by exact R1. reflexivity. }
  unfold encode, decode. rewrite (P _ Re), (P _ Rd). cbn [bind].
  rewrite rem64_Ok by lia. rewrite Z.rem_small by lia. auto.
Qed.

Lemma roundtrip_of_one_witness :
  encode (Key.mkPublic 6 0) 1 = Ok 1
  /\ decode (Key.mkPublic 6 0) (Key.mkPrivate 2 3 (-4)) 1 = Ok 1.
Proof.
  apply (roundtrip_of_one (Key.mkPublic 6 0) (Key.mkPrivate 2 3 (-4)));
    unfold in_llong, LLONG_MIN, LLONG_MAX; simpl; lia.
Defined.

(** ** [Utility::File::saveTo] (lines 97-135) *)

Section FileProperties.
Import Ascii String File.
#[local] Open Scope string_scope.

Lemma skip_skip a : forall b text, skip a (skip b text) = skip (b + a) text.
Proof.
  intros b. induction b as [| b IH]; intros text.
  - reflexivity.
  - destruct text as [| c text].
    + destruct a; reflexivity.
    + cbn [skip Nat.add]. apply IH.
Qed.

Lemma skip_append a b : skip (length a) (a ++ b) = b.
Proof. induction a as [| c a IH]; [reflexivity | exact IH]. Qed.

Lemma skip_length count : forall text,
  length (skip count text) = (length text - count)%nat.
Proof.
  induction count as [| count IH]; intros [| c text]; cbn [skip length];
    try rewrite IH; try reflexivity.
Qed.

Lemma append_assoc (a b c : string) : (a ++ b) ++ c = a ++ b ++ c.
Proof.
  induction a as [| x a IH]; cbn [append]; [| rewrite IH]; reflexivity.
Qed.

Lemma append_empty (a : string) : a ++ "" = a.
Proof.
  induction a as [| x a IH]; cbn [append]; [| rewrite IH]; reflexivity.
Qed.

Lemma length_append (a b : string) :
  length (a ++ b) = (length a + length b)%nat.
Proof.
  induction a as [| x a IH]; cbn [append length]; [| rewrite IH]; reflexivity.
Qed.

Lemma puts_opened texts : forall name written rest w,
  puts texts (mkStream (Opened name written rest) true, w)
  = (mkStream (Opened name (written ++ join texts)
                 (skip (length (join texts)) rest)) true, w).
Proof.
  induction texts as [| text texts IH]; intros name written rest w.
  - cbn [puts join length skip]. rewrite append_empty. reflexivity.
  - cbn [puts join]. unfold fs_put. cbn [good buf].
    rewrite IH, skip_skip, append_assoc, length_append. reflexivity.
Qed.

Lemma puts_closed text texts g w :
  puts (text :: texts) (mkStream Closed g, w) = (mkStream Closed false, w).
Proof.
  cbn [puts]. replace (fs_put text (mkStream Closed g, w))
    with (mkStream Closed false, w) by (destruct g; reflexivity).
  induction texts as [| t texts IH]; [reflexivity | exact IH].
Qed.

Ltac same_world_by_cases :=
  unfold same_world; repeat apply conj; try reflexivity;
  try (intros name; cbn [files store cout may_open may_write console];
       destruct (String.eqb name _); reflexivity).

Lemma prepared_existing filename w old :
  files w filename = Some old -> may_open w filename = true ->
  prepared filename w = (mkStream (Opened filename "" old) true, w).
Proof.
  intros Ef Eo. unfold prepared, fs_open. cbn [buf].
  rewrite Ef, Eo. reflexivity.
Qed.

Lemma prepared_created filename w :
  files w filename = None \/ may_open w filename = false ->
  exists w',
    prepared filename w
    = (mkStream (if may_write w filename && may_open w filename
                 then Opened filename "" "" else Closed)
         (may_write w filename && may_open w filename), w')
    /\ same_world w'
         (if may_write w filename
          then store filename "" (announce filename w)
          else announce filename w).
Proof.
  intros H. unfold prepared, announce.
  set (m1 := "Couldn't open existing file. Creating "
             ++ filename ++ "..." ++ newline).
  set (m2 := "File created." ++ newline).
  assert (E : fs_open filename (mkStream Closed true, w)
              = (mkStream Closed false, w)).
  { unfold fs_open. cbn [buf].
    destruct H as [H | H]; rewrite H; [reflexivity |].
    destruct (files w filename); reflexivity. }
  rewrite E. unfold is_open, console_put, fs_clear, fs_open_out.
  cbn [buf fst snd negb cout may_write].
  destruct (may_write w filename) eqn:Ew.
  - unfold fs_close, fs_open.
    cbn [buf good files store cout may_open andb]. rewrite String.eqb_refl.
    destruct (may_open w filename) eqn:Eo; cbn [fst snd append];
      eexists; (split; [reflexivity | same_world_by_cases]).
  - unfold fs_close, fs_open. cbn [buf good files cout may_open andb].
    destruct H as [H | H]; rewrite H; [| destruct (files w filename)];
      cbn [fst snd];
      eexists; (split; [reflexivity | same_world_by_cases]).
Qed.

Lemma same_world_store name content w1 w2 :
  same_world w1 w2 -> same_world (store name content w1) (store name content w2).
Proof.
  intros [Hf [Ho [Hw Hc]]]. unfold same_world.
  cbn [files store may_open may_write console].
  repeat apply conj; try assumption.
  intros other. rewrite Hf. reflexivity.
Qed.

Lemma save_steps filename text texts w :
  same_world
    (snd (fs_close (puts (text :: texts) (fs_clear (prepared filename w)))))
    (saved filename (join (text :: texts)) w).
Proof.
  unfold saved.
  destruct (files w filename) as [old |] eqn:Ef;
    [destruct (may_open w filename) eqn:Eo |].
  - rewrite (prepared_existing filename w old Ef Eo).
    unfold fs_clear. cbn [buf fst snd].
    rewrite puts_opened. unfold fs_close. cbn [buf good snd].
    unfold written_over. cbn [append]. same_world_by_cases.
  - destruct (prepared_created filename w (or_intror Eo)) as [w' [E Hw]].
    rewrite E, Eo, Bool.andb_false_r. unfold fs_clear. cbn [buf fst snd].
    rewrite puts_closed. cbn [fs_close buf snd].
    destruct (may_write w filename); exact Hw.
  - destruct (prepared_created filename w (or_introl Ef)) as [w' [E Hw]].
    rewrite E. unfold fs_clear. cbn [buf fst snd].
    destruct (may_write w filename); cbn [andb].
    + destruct (may_open w filename).
      * rewrite puts_opened. unfold fs_close. cbn [buf good snd append].
        replace (skip (length (join (text :: texts))) "") with ""
          by (destruct (length (join (text :: texts))); reflexivity).
        rewrite append_empty.
        destruct Hw as [Hf [Ho [Hw Hc]]]. unfold same_world.
        cbn [files store may_open may_write console] in *.
        repeat apply conj; try assumption.
        intros name. rewrite Hf.
        destruct (String.eqb name filename); reflexivity.
      * rewrite puts_closed. cbn [fs_close buf snd]. exact Hw.
    + rewrite puts_closed. cbn [fs_close buf snd]. exact Hw.
Qed.

Lemma saveTo_public_saved filename key w :
  same_world (saveTo_public filename key w)
             (saved filename (public_text key) w).
Proof.
  unfold public_text.
  rewrite <- (append_empty (decimal (Key.e key))).
  exact (save_steps filename "n: "
           [decimal (Key.n key); newline; "e: "; decimal (Key.e key)] w).
Qed.

Lemma saveTo_private_saved filename key w :
  same_world (saveTo_private filename key w)
             (saved filename (private_text key) w).
Proof.
  unfold private_text.
  rewrite <- (append_empty (decimal (Key.d key))).
  exact (save_steps filename "p: "
           [decimal (Key.p key); newline; "q: "; decimal (Key.q key);
            newline; "d: "; decimal (Key.d key)] w).
Qed.

Lemma saved_existing filename text w old :
  files w filename = Some old -> may_open w filename = true ->
  saved filename text w = store filename (written_over text old) w.
Proof. intros Ef Eo. unfold saved. rewrite Ef, Eo. reflexivity. Qed.

Lemma saved_created filename text w :
  files w filename = None \/ may_open w filename = false ->
  saved filename text w
  = if may_write w filename
    then store filename (if may_open w filename then text else "")
           (announce filename w)
    else announce filename w.
Proof.
  intros H. unfold saved.
  destruct H as [H | H]; rewrite H; [| destruct (files w filename)];
    reflexivity.
Qed.

Lemma written_over_length text old :
  length (written_over text old) = Nat.max (length text) (length old).
Proof.
  unfold written_over. rewrite length_append, skip_length. lia.
Qed.

Lemma written_over_again text old :
  written_over text (written_over text old) = written_over text old.
Proof.
  unfold written_over at 1 3. unfold written_over. rewrite skip_append. reflexivity.
Qed.

(** X19: an existing file that can be opened is overwritten in place.
    Both overloads of [saveTo] write the key text from position 0 over the
    old content and keep whatever the old content has behind the text; they
    print nothing.  The [clear()] of lines 111 and 131 does not empty the
    file. *)
Theorem saveTo_overwrites_in_place filename pk sk w old :
  files w filename = Some old -> may_open w filename = true ->
  (files (saveTo_public filename pk w) filename
   = Some (written_over (public_text pk) old)
   /\ console (saveTo_public filename pk w) = console w)
  /\ (files (saveTo_private filename sk w) filename
      = Some (written_over (private_text sk) old)
      /\ console (saveTo_private filename sk w) = console w).
Proof.
  intros Ef Eo.
  destruct (saveTo_public_saved filename pk w) as [Hf [_ [_ Hc]]].
  destruct (saveTo_private_saved filename sk w) as [Hf' [_ [_ Hc']]].
  rewrite Hf, Hc, Hf', Hc', !(saved_existing _ _ _ old Ef Eo).
  cbn [files store console]. rewrite String.eqb_refl. auto.
Qed.

Lemma saveTo_overwrites_in_place_witness :
  (files (saveTo_public "k.txt" (Key.mkPublic 33 3)
            (world_with "k.txt" "n: 1234567")) "k.txt"
   = Some (written_over (public_text (Key.mkPublic 33 3)) "n: 1234567")
   /\ console (saveTo_public "k.txt" (Key.mkPublic 33 3)
                 (world_with "k.txt" "n: 1234567"))
      = console (world_with "k.txt" "n: 1234567"))
  /\ (files (saveTo_private "k.txt" (Key.mkPrivate 3 11 7)
               (world_with "k.txt" "n: 1234567")) "k.txt"
      = Some (written_over (private_text (Key.mkPrivate 3 11 7)) "n: 1234567")
      /\ console (saveTo_private "k.txt" (Key.mkPrivate 3 11 7)
                    (world_with "k.txt" "n: 1234567"))
         = console (world_with "k.txt" "n: 1234567")).
Proof.
  apply (saveTo_overwrites_in_place "k.txt" (Key.mkPublic 33 3)
           (Key.mkPrivate 3 11 7) (world_with "k.txt" "n: 1234567")
           "n: 1234567"); reflexivity.
Defined.

(** X20: [saveTo] never shortens an existing file that it can open: the
    new content is as long as the longer of the key text and the old
    content, so a longer file is left with a tail of its old content. *)
Theorem saveTo_never_truncates filename pk sk w old :
  files w filename = Some old -> may_open w filename = true ->
  (exists content,
     files (saveTo_public filename pk w) filename = Some content
     /\ length content = Nat.max (length (public_text pk)) (length old))
  /\ (exists content,
       files (saveTo_private filename sk w) filename = Some content
       /\ length content = Nat.max (length (private_text sk)) (length old)).
Proof.
  intros Ef Eo.
  destruct (saveTo_public_saved filename pk w) as [Hf _].
  destruct (saveTo_private_saved filename sk w) as [Hf' _].
  split; eexists; rewrite ?Hf, ?Hf', (saved_existing _ _ _ old Ef Eo);
    cbn [files store]; rewrite String.eqb_refl;
    (split; [reflexivity | apply written_over_length]).
Qed.

Lemma saveTo_never_truncates_witness :
  (exists content,
     files (saveTo_public "k.txt" (Key.mkPublic 33 3)
              (world_with "k.txt" "n: 1234567 e: 65537")) "k.txt"
     = Some content
     /\ length content
        = Nat.max (length (public_text (Key.mkPublic 33 3)))
            (length "n: 1234567 e: 65537"))
  /\ (exists content,
       files (saveTo_private "k.txt" (Key.mkPrivate 3 11 7)
                (world_with "k.txt" "n: 1234567 e: 65537")) "k.txt"
       = Some content
       /\ length content
          = Nat.max (length (private_text (Key.mkPrivate 3 11 7)))
              (length "n: 1234567 e: 65537")).
Proof.
  apply (saveTo_never_truncates "k.txt" (Key.mkPublic 33 3)
           (Key.mkPrivate 3 11 7) (world_with "k.txt" "n: 1234567 e: 65537")
           "n: 1234567 e: 65537"); reflexivity.
Defined.

(** X21: a missing file that can be created and opened ends up holding
    exactly the key text, and the console gets the two messages
    "Couldn't open existing file. Creating <name>..." and
    "File created.". *)
Theorem saveTo_creates_missing_file filename pk sk w :
  files w filename = None ->
  may_write w filename = true -> may_open w filename = true ->
  (files (saveTo_public filename pk w) filename = Some (public_text pk)
   /\ console (saveTo_public filename pk w) = console (announce filename w))
  /\ (files (saveTo_private filename sk w) filename = Some (private_text sk)
      /\ console (saveTo_private filename sk w)
         = console (announce filename w)).
Proof.
  intros Ef Ew Eo.
  destruct (saveTo_public_saved filename pk w) as [Hf [_ [_ Hc]]].
  destruct (saveTo_private_saved filename sk w) as [Hf' [_ [_ Hc']]].
  rewrite Hf, Hc, Hf', Hc', !(saved_created _ _ _ (or_introl Ef)), Ew, Eo.
  cbn [files store console]. rewrite String.eqb_refl. auto.
Qed.

Lemma saveTo_creates_missing_file_witness :
  (files (saveTo_public "publickey.txt" (Key.mkPublic 33 3) empty_world)
     "publickey.txt"
   = Some (public_text (Key.mkPublic 33 3))
   /\ console (saveTo_public "publickey.txt" (Key.mkPublic 33 3) empty_world)
      = console (announce "publickey.txt" empty_world))
  /\ (files (saveTo_private "publickey.txt" (Key.mkPrivate 3 11 7) empty_world)
        "publickey.txt"
      = Some (private_text (Key.mkPrivate 3 11 7))
      /\ console (saveTo_private "publickey.txt" (Key.mkPrivate 3 11 7)
                    empty_world)
         = console (announce "publickey.txt" empty_world)).
Proof.
  apply (saveTo_creates_missing_file "publickey.txt" (Key.mkPublic 33 3)
           (Key.mkPrivate 3 11 7) empty_world); reflexivity.
Defined.

(** X22: a name that can be opened for writing but not for reading and
    writing (an existing write-only file, or a file that cannot be reopened
    once created) ends up as an empty file: [open(filename, std::ios::out)]
    empties or creates it, the second [open(filename)] fails, and nothing
    is written. *)
Theorem saveTo_empties_write_only_file filename pk sk w :
  may_open w filename = false -> may_write w filename = true ->
  (files (saveTo_public filename pk w) filename = Some ""
   /\ console (saveTo_public filename pk w) = console (announce filename w))
  /\ (files (saveTo_private filename sk w) filename = Some ""
      /\ console (saveTo_private filename sk w)
         = console (announce filename w)).
Proof.
  intros Eo Ew.
  destruct (saveTo_public_saved filename pk w) as [Hf [_ [_ Hc]]].
  destruct (saveTo_private_saved filename sk w) as [Hf' [_ [_ Hc']]].
  rewrite Hf, Hc, Hf', Hc', !(saved_created _ _ _ (or_intror Eo)), Ew, Eo.
  cbn [files store console]. rewrite String.eqb_refl. auto.
Qed.

Lemma saveTo_empties_write_only_file_witness :
  (files (saveTo_public "k.txt" (Key.mkPublic 33 3)
            (write_only_world "k.txt" "notes")) "k.txt" = Some ""
   /\ console (saveTo_public "k.txt" (Key.mkPublic 33 3)
                 (write_only_world "k.txt" "notes"))
      = console (announce "k.txt" (write_only_world "k.txt" "notes")))
  /\ (files (saveTo_private "k.txt" (Key.mkPrivate 3 11 7)
               (write_only_world "k.txt" "notes")) "k.txt" = Some ""
      /\ console (saveTo_private "k.txt" (Key.mkPrivate 3 11 7)
                    (write_only_world "k.txt" "notes"))
         = console (announce "k.txt" (write_only_world "k.txt" "notes"))).
Proof.
  apply (saveTo_empties_write_only_file "k.txt" (Key.mkPublic 33 3)
           (Key.mkPrivate 3 11 7) (write_only_world "k.txt" "notes"));
    reflexivity.
Defined.

(** X23: when the first [open] fails and the name cannot be opened for
    writing either, no file changes, nothing is written, and the console
    still ends with "File created.". *)
Theorem saveTo_reports_creation_it_did_not_do filename pk sk w :
  files w filename = None \/ may_open w filename = false ->
  may_write w filename = false ->
  ((forall name, files (saveTo_public filename pk w) name = files w name)
   /\ console (saveTo_public filename pk w) = console (announce filename w))
  /\ ((forall name, files (saveTo_private filename sk w) name = files w name)
      /\ console (saveTo_private filename sk w)
         = console (announce filename w)).
Proof.
  intros H Ew.
  destruct (saveTo_public_saved filename pk w) as [Hf [_ [_ Hc]]].
  destruct (saveTo_private_saved filename sk w) as [Hf' [_ [_ Hc']]].
  rewrite Hc, Hc', !(saved_created _ _ _ H), Ew.
  repeat apply conj; try reflexivity; intros name;
    rewrite ?Hf, ?Hf', (saved_created _ _ _ H), Ew; reflexivity.
Qed.

Lemma saveTo_reports_creation_it_did_not_do_witness :
  ((forall name,
      files (saveTo_public "k.txt" (Key.mkPublic 33 3) locked_world) name
      = files locked_world name)
   /\ console (saveTo_public "k.txt" (Key.mkPublic 33 3) locked_world)
      = console (announce "k.txt" locked_world))
  /\ ((forall name,
         files (saveTo_private "k.txt" (Key.mkPrivate 3 11 7) locked_world) name
         = files locked_world name)
      /\ console (saveTo_private "k.txt" (Key.mkPrivate 3 11 7) locked_world)
         = console (announce "k.txt" locked_world)).
Proof.
  apply (saveTo_reports_creation_it_did_not_do "k.txt" (Key.mkPublic 33 3)
           (Key.mkPrivate 3 11 7) locked_world);
    [left; reflexivity | reflexivity].
Defined.

Lemma saved_frame filename text w other :
  String.eqb other filename = false ->
  files (saved filename text w) other = files w other.
Proof.
  intros Hne. unfold saved.
  destruct (files w filename); destruct (may_open w filename);
    try destruct (may_write w filename);
    cbn [files store announce cout]; rewrite ?Hne; reflexivity.
Qed.

Lemma saved_permissions filename text w :
  may_open (saved filename text w) = may_open w
  /\ may_write (saved filename text w) = may_write w.
Proof.
  unfold saved.
  destruct (files w filename); destruct (may_open w filename);
    try destruct (may_write w filename); split; reflexivity.
Qed.

(** X24: [saveTo] leaves every file other than [filename] as it is. *)
Theorem saveTo_touches_one_file filename pk sk w other :
  other <> filename ->
  files (saveTo_public filename pk w) other = files w other
  /\ files (saveTo_private filename sk w) other = files w other.
Proof.
  intros Hne. apply String.eqb_neq in Hne.
  destruct (saveTo_public_saved filename pk w) as [Hf _].
  destruct (saveTo_private_saved filename sk w) as [Hf' _].
  rewrite Hf, Hf', !saved_frame by exact Hne. auto.
Qed.

Lemma saveTo_touches_one_file_witness :
  files (saveTo_public "publickey.txt" (Key.mkPublic 33 3)
           (world_with "notes.txt" "notes")) "notes.txt"
  = files (world_with "notes.txt" "notes") "notes.txt"
  /\ files (saveTo_private "publickey.txt" (Key.mkPrivate 3 11 7)
              (world_with "notes.txt" "notes")) "notes.txt"
     = files (world_with "notes.txt" "notes") "notes.txt".
Proof.
  apply (saveTo_touches_one_file "publickey.txt" (Key.mkPublic 33 3)
           (Key.mkPrivate 3 11 7) (world_with "notes.txt" "notes") "notes.txt").
  discriminate.
Defined.

Lemma saved_twice filename text w :
  may_open w filename = true -> may_write w filename = true ->
  same_world (saved filename text (saved filename text w))
             (saved filename text w).
Proof.
  intros Eo Ew. unfold saved at 2 3. rewrite Eo, Ew.
  destruct (files w filename) as [old |];
    unfold saved; cbn [files store may_open may_write announce cout];
    rewrite String.eqb_refl, Eo.
  - rewrite written_over_again. same_world_by_cases.
  - unfold written_over. pose proof (skip_append text "") as E.
    rewrite append_empty in E. rewrite E, append_empty.
    same_world_by_cases.
Qed.

Lemma same_world_sym w1 w2 : same_world w1 w2 -> same_world w2 w1.
Proof.
  intros [Hf [Ho [Hw Hc]]]. unfold same_world. auto.
Qed.

Lemma same_world_trans w1 w2 w3 :
  same_world w1 w2 -> same_world w2 w3 -> same_world w1 w3.
Proof.
  intros [Hf [Ho [Hw Hc]]] [Hf' [Ho' [Hw' Hc']]]. unfold same_world.
  split; [intros name; rewrite Hf; apply Hf' | repeat split; congruence].
Qed.

Lemma saved_same_world filename text w1 w2 :
  same_world w1 w2 ->
  same_world (saved filename text w1) (saved filename text w2).
Proof.
  intros [Hf [Ho [Hw Hc]]]. unfold saved. rewrite Hf, Ho, Hw.
  destruct (files w2 filename); destruct (may_open w2 filename);
    try destruct (may_write w2 filename);
    unfold same_world; cbn [files store may_open may_write console announce cout];
    repeat apply conj; try assumption; try (rewrite Hc; reflexivity);
    intros name; rewrite Hf; reflexivity.
Qed.

(** X25: saving the same key a second time changes nothing: where the
    name can be opened and written, the second call leaves the files and
    the console as the first call left them. *)
Theorem saveTo_twice filename pk sk w :
  may_open w filename = true -> may_write w filename = true ->
  same_world (saveTo_public filename pk (saveTo_public filename pk w))
             (saveTo_public filename pk w)
  /\ same_world (saveTo_private filename sk (saveTo_private filename sk w))
                (saveTo_private filename sk w).
Proof.
  intros Eo Ew. split.
  - pose proof (saveTo_public_saved filename pk w) as H1.
    apply (same_world_trans _ _ _ (saveTo_public_saved filename pk _)).
    apply (same_world_trans _ _ _ (saved_same_world filename _ _ _ H1)).
    apply (same_world_trans _ _ _ (saved_twice filename _ w Eo Ew)).
    apply same_world_sym. exact H1.
  - pose proof (saveTo_private_saved filename sk w) as H1.
    apply (same_world_trans _ _ _ (saveTo_private_saved filename sk _)).
    apply (same_world_trans _ _ _ (saved_same_world filename _ _ _ H1)).
    apply (same_world_trans _ _ _ (saved_twice filename _ w Eo Ew)).
    apply same_world_sym. exact H1.
Qed.

Lemma saveTo_twice_witness :
  same_world
    (saveTo_public "k.txt" (Key.mkPublic 33 3)
       (saveTo_public "k.txt" (Key.mkPublic 33 3) empty_world))
    (saveTo_public "k.txt" (Key.mkPublic 33 3) empty_world)
  /\ same_world
       (saveTo_private "k.txt" (Key.mkPrivate 3 11 7)
          (saveTo_private "k.txt" (Key.mkPrivate 3 11 7) empty_world))
       (saveTo_private "k.txt" (Key.mkPrivate 3 11 7) empty_world).
Proof.
  apply (saveTo_twice "k.txt" (Key.mkPublic 33 3) (Key.mkPrivate 3 11 7)
           empty_world); reflexivity.
Defined.


Lemma decimal_injective a b : decimal a = decimal b -> a = b.
Proof.
  unfold decimal. intros H.
  assert (N : forall z, DecimalString.NilZero.int_of_string
                          (DecimalString.NilZero.string_of_int (Z.to_int z))
                        = Some (Z.to_int z)).
  { intros z. apply DecimalString.NilZero.isi; destruct z; cbn [Z.to_int];
      try discriminate; intros E; injection E;
      apply DecimalPos.Unsigned.to_uint_nonnil. }
  pose proof (N a) as Na. rewrite H, N in Na. injection Na as E.
  rewrite <- (DecimalZ.of_to a), <- (DecimalZ.of_to b), E. reflexivity.
Qed.

Lemma uint_one_line d :
  one_line (DecimalString.NilEmpty.string_of_uint d) = true.
Proof. induction d; cbn; assumption || reflexivity. Qed.

Lemma decimal_one_line z : one_line (decimal z) = true.
Proof.
  assert (U : forall d, one_line (DecimalString.NilZero.string_of_uint d) = true).
  { intros d. destruct d; try reflexivity; apply uint_one_line. }
  unfold decimal. destruct (Z.to_int z) as [d | d];
    cbn [DecimalString.NilZero.string_of_int one_line]; [apply U |].
  rewrite U. reflexivity.
Qed.

Lemma line_unique a : forall b r1 r2,
  one_line a = true -> one_line b = true ->
  a ++ newline ++ r1 = b ++ newline ++ r2 -> a = b /\ r1 = r2.
Proof.
  induction a as [| c a IH]; intros [| c' b] r1 r2 Ha Hb H;
    cbn [append one_line] in *.
  - injection H as H. auto.
  - injection H as Hc H. rewrite <- Hc in Hb. discriminate.
  - injection H as Hc H. rewrite Hc in Ha. discriminate.
  - injection H as Hc H. apply andb_prop in Ha, Hb.
    destruct (IH b r1 r2) as [E1 E2]; try tauto. subst. auto.
Qed.

(** X26: the text written for a key determines the key: two public keys
    (two private keys) with the same text are equal. *)
Theorem key_text_determines_key :
  (forall k1 k2, public_text k1 = public_text k2 -> k1 = k2)
  /\ (forall k1 k2, private_text k1 = private_text k2 -> k1 = k2).
Proof.
  split.
  - intros [n1 e1] [n2 e2]. unfold public_text. cbn [Key.n Key.e append].
    intros H. injection H as H.
    apply line_unique in H; try apply decimal_one_line.
    destruct H as [Hn He]. injection He as He.
    apply decimal_injective in Hn, He. subst. reflexivity.
  - intros [p1 q1 d1] [p2 q2 d2]. unfold private_text.
    cbn [Key.p Key.q Key.d append].
    intros H. injection H as H.
    apply line_unique in H; try apply decimal_one_line.
    destruct H as [Hp H]. injection H as H.
    apply line_unique in H; try apply decimal_one_line.
    destruct H as [Hq Hd]. injection Hd as Hd.
    apply decimal_injective in Hp, Hq, Hd. subst. reflexivity.
Qed.
End FileProperties.

(** ** [main] (lines 199-238) *)

Section MainProperties.
Import Ascii String File.

Lemma files_cout text w name : files (cout text w) name = files w name.
Proof. reflexivity. Qed.

Lemma keys_saved_frame pk sk w name :
  name <> "publickey.txt"%string -> name <> "privatekey.txt"%string ->
  files (keys_saved pk sk w) name = files w name.
Proof.
  intros H1 H2. apply String.eqb_neq in H1, H2.
  unfold keys_saved. rewrite files_cout.
  destruct (saveTo_private_saved "privatekey.txt" sk
              (saveTo_public "publickey.txt" pk (primes_asked w))) as [Hf _].
  destruct (saveTo_public_saved "publickey.txt" pk (primes_asked w))
    as [Hf' _].
  rewrite Hf, saved_frame, Hf', saved_frame by assumption. reflexivity.
Qed.

(** X27: when [isPrime] rejects the first or the second number read,
    [main] is aborted by the assertion of [publicKey] right after the two
    prompts: no file is opened and no key is saved. *)
Theorem main_rejects_non_primes p q rest w :
  isPrime p = Ok false \/ isPrime q = Ok false ->
  main (p :: q :: rest) w = (primes_asked w, AssertFail).
Proof.
  intros H. unfold main. cbn [cin_llong].
  rewrite publicKey_reject; [reflexivity |].
  destruct (isPrime_total p) as [[|] Ep]; auto.
  destruct H as [H | H]; [congruence | auto].
Qed.

Lemma main_rejects_non_primes_witness :
  main [4; 5; 2] empty_world = (primes_asked empty_world, AssertFail).
Proof.
  apply (main_rejects_non_primes 4 5 [2] empty_world).
  left. vm_compute. reflexivity.
Defined.

(** X28: [main] on small odd primes.  For odd primes [p], [q] with
    [(p - 1) * (q - 1) <= 10000] not divisible by 3 and any third number
    [m], [main] saves the keys [{p * q, 3}] and [{p, q, d}], [d] the inverse
    of 3 modulo [(p - 1) * (q - 1)], and asks for [m]; then, if
    [0 < m < p * q], it prints [c = m^3 % (p * q)] and
    [c^d % (p * q)] (the powers wrapped to 64 bits) with the verdict and
    returns 0, and otherwise it is aborted by the assertion of line 222,
    after both files are written. *)
Theorem main_small_primes p q m rest w :
  Z.prime p -> Z.prime q -> p <> 2 -> q <> 2 ->
  (p - 1) * (q - 1) <= 10000 ->
  ((p - 1) * (q - 1)) mod 3 <> 0 ->
  exists d,
    1 <= d < (p - 1) * (q - 1)
    /\ (3 * d) mod ((p - 1) * (q - 1)) = 1
    /\ main (p :: q :: m :: rest) w
       = let w' := keys_saved (Key.mkPublic (p * q) 3) (Key.mkPrivate p q d) w in
         if (0 <? m) && (m <? p * q) then
           let c := Z.rem (wrap64 (m ^ 3)) (p * q) in
           let m_decoded := Z.rem (wrap64 (c ^ d)) (p * q) in
           (reported m c m_decoded w', Ok 0)
         else (w', AssertFail).
Proof.
  intros Hp Hq Hp2 Hq2 Hsmall H3.
  pose proof (Z.prime_ge_2 p Hp). pose proof (Z.prime_ge_2 q Hq).
  destruct (small_primes_fit p q Hp Hq Hsmall) as [Sp [Sq Hn]].
  assert (L : search_leaves ((p - 1) * (q - 1)) = true).
  { apply (search_leaves_from_spec _ 2 search_leaves_upto_10000);
      [nia | exact H3]. }
  destruct (privateKey_search_3 p q Hp Hq Sp Sq L) as [d [Ed [Hd Hinv]]].
  destruct (odd_primes_phi p q Hp Hq Hp2 Hq2 Sp Sq) as [Wn [Wphi [H4 Hev]]].
  assert (Epk : publicKey p q = Ok (Key.mkPublic (p * q) 3)).
  { rewrite <- Wn. apply publicKey_even_phi; try assumption.
    - apply prime_isPrime; assumption.
    - apply prime_isPrime; assumption.
    - split; [exact H4 |]. rewrite Wphi. unfold vector_max_size.
      change (2 ^ 60) with 1152921504606846976. lia. }
  exists d. split; [exact Hd |]. split; [exact Hinv |].
  unfold main. cbn [cin_llong]. rewrite Epk. cbn [call]. rewrite Ed.
  cbn [call Key.n]. cbv zeta.
  change (cout "Insert m: " _)
    with (keys_saved (Key.mkPublic (p * q) 3) (Key.mkPrivate p q d) w).
  destruct ((0 <? m) && (m <? p * q)) eqn:Em; cbn [assert call];
    [| reflexivity].
  apply andb_prop in Em. destruct Em as [Em1 Em2].
  apply Z.ltb_lt in Em1, Em2.
  assert (R : forall z, - (p * q) < z < p * q -> in_llong z).
  { intros z Hz. unfold in_llong, LLONG_MIN, LLONG_MAX.
    change (2 ^ 63) with 9223372036854775808. lia. }
  assert (B : forall z, - (p * q) < Z.rem z (p * q) < p * q).
  { intros z. pose proof (Z.rem_bound_abs z (p * q) ltac:(lia)). lia. }
  rewrite encode_value;
    [| lia | apply R; lia
     | unfold LLONG_MAX; change (2 ^ 63) with 9223372036854775808; lia].
  cbn [call].
  rewrite decode_value;
    [| lia | apply R; apply B
     | unfold LLONG_MAX; change (2 ^ 63) with 9223372036854775808; lia].
  reflexivity.
Qed.

Lemma main_small_primes_witness :
  exists d,
    1 <= d < (3 - 1) * (11 - 1)
    /\ (3 * d) mod ((3 - 1) * (11 - 1)) = 1
    /\ main [3; 11; 7] empty_world
       = let w' := keys_saved (Key.mkPublic (3 * 11) 3)
                     (Key.mkPrivate 3 11 d) empty_world in
         if (0 <? 7) && (7 <? 3 * 11) then
           let c := Z.rem (wrap64 (7 ^ 3)) (3 * 11) in
           let m_decoded := Z.rem (wrap64 (c ^ d)) (3 * 11) in
           (reported 7 c m_decoded w', Ok 0)
         else (w', AssertFail).
Proof.
  apply (main_small_primes 3 11 7 [] empty_world).
  - exact Z.prime_3.
  - exact prime_11.
  - lia.
  - lia.
  - simpl. lia.
  - vm_compute. discriminate.
Defined.

(** X29: whatever the input is and however [main] ends, it leaves every
    file other than [publickey.txt] and [privatekey.txt] as it is. *)
Theorem main_touches_two_files input w name :
  name <> "publickey.txt"%string -> name <> "privatekey.txt"%string ->
  files (fst (main input w)) name = files w name.
Proof.
  intros H1 H2. unfold main.
  destruct (cin_llong input) as [p input1].
  destruct (cin_llong input1) as [q input2].
  destruct (publicKey p q) as [pk | | | |]; cbn [call fst];
    [| reflexivity ..].
  destruct (privateKey p q pk) as [sk | | | |]; cbn [call fst];
    [| reflexivity ..].
  destruct (cin_llong input2) as [m input3]. cbv zeta.
  change (cout "Insert m: " _) with (keys_saved pk sk w).
  pose proof (keys_saved_frame pk sk w name H1 H2) as F.
  destruct (assert ((0 <? m) && (m <? Key.n pk))); cbn [call fst];
    [| exact F ..].
  destruct (encode pk m) as [c | | | |]; cbn [call fst]; [| exact F ..].
  destruct (decode pk sk c) as [m_decoded | | | |]; cbn [call fst];
    rewrite !files_cout; exact F.
Qed.

Lemma main_touches_two_files_witness :
  files (fst (main [3; 11; 7] (world_with "notes.txt" "notes")))
    "notes.txt"%string
  = files (world_with "notes.txt" "notes") "notes.txt"%string.
Proof.
  apply (main_touches_two_files [3; 11; 7] (world_with "notes.txt" "notes")
           "notes.txt"%string); discriminate.
Defined.
End MainProperties.
